(** * formenc: decoding form values into Go structs

    A shallow embedding of [encoding/form/encoding.go] (package [form] of
    Masterminds/formenc) and the properties of its decode engine.

    Go strings are byte sequences and are modelled by [string]; the reflective
    view of the destination ([reflect.Value]) is modelled by explicit data; the
    mutation of the destination is modelled by state passing; a run-time panic
    is an outcome of its own.  Log and print statements are left out. *)

From Stdlib Require Import ZArith Ascii String List Lia Bool.
From stdpp Require Import base option list strings gmap.

Local Open Scope string_scope.
Local Open Scope Z_scope.

(** ** The parts of Go's [strings] package the decoder uses *)

Module strings.

(** [strings.Split(s, sep)] for a one-byte separator: a string with [n]
    separators is cut into [n+1] parts, so the result is never empty. *)
Fixpoint Split (s : string) (sep : ascii) : list string :=
  match s with
  | EmptyString => [EmptyString]
  | String c s' =>
      if Ascii.eqb c sep then EmptyString :: Split s' sep
      else match Split s' sep with
           | p :: ps => String c p :: ps
           | [] => [String c EmptyString]
           end
  end.

(** [strings.Join(parts, sep)] for a one-byte separator. *)
Fixpoint Join (parts : list string) (sep : ascii) : string :=
  match parts with
  | [] => EmptyString
  | [p] => p
  | p :: ps => p ++ String sep (Join ps sep)
  end.

Definition HasPrefix (s pre : string) : bool := String.prefix pre s.

Fixpoint drop (n : nat) (s : string) : string :=
  match n, s with
  | O, _ => s
  | S n', String _ s' => drop n' s'
  | S _, EmptyString => EmptyString
  end.

Definition TrimPrefix (s pre : string) : string :=
  if HasPrefix s pre then drop (String.length pre) s else s.

(** [strings.ToLower], on ASCII letters. *)
Fixpoint ToLower (s : string) : string :=
  match s with
  | EmptyString => EmptyString
  | String c s' =>
      let n := N_of_ascii c in
      String (if (65 <=? n)%N && (n <=? 90)%N then ascii_of_N (n + 32) else c)
             (ToLower s')
  end.

End strings.

(** ** Tags *)

(** [type Tag struct]; its two unexported function fields ([validator],
    [unmarshaler]) are never assigned by the package and are left out. *)
Record Tag : Type := mkTag {
  Name : string;
  Prefix : string;
  Suffix : string;
  Omit : bool;
  Ignore : bool;
  Group : bool
}.

#[export] Instance Tag_eq_dec : EqDecision Tag.
Proof. solve_decision. Defined.

(** [&Tag{}] *)
Definition zeroTag : Tag := mkTag "" "" "" false false false.

Definition setName (n : string) (t : Tag) : Tag :=
  mkTag n (Prefix t) (Suffix t) (Omit t) (Ignore t) (Group t).
Definition setPrefix (p : string) (t : Tag) : Tag :=
  mkTag (Name t) p (Suffix t) (Omit t) (Ignore t) (Group t).
Definition setSuffix (s : string) (t : Tag) : Tag :=
  mkTag (Name t) (Prefix t) s (Omit t) (Ignore t) (Group t).
Definition setOmit (b : bool) (t : Tag) : Tag :=
  mkTag (Name t) (Prefix t) (Suffix t) b (Ignore t) (Group t).
Definition setIgnore (b : bool) (t : Tag) : Tag :=
  mkTag (Name t) (Prefix t) (Suffix t) (Omit t) b (Group t).
Definition setGroup (b : bool) (t : Tag) : Tag :=
  mkTag (Name t) (Prefix t) (Suffix t) (Omit t) (Ignore t) b.

(** The [switch n := parts[0]] of [parseTag]. *)
Definition parseHead (n : string) (t : Tag) : Tag :=
  if String.eqb n "+" then setGroup true t
  else if String.eqb n "-" then setIgnore true t
  else setName n t.

(** The body of the loop [for _, p := range parts[1:]] of [parseTag]. *)
Definition parseSegment (t : Tag) (p : string) : Tag :=
  if String.eqb p "omitempty" then setOmit true t
  else if strings.HasPrefix p "prefix=" then setPrefix (strings.TrimPrefix p "prefix=") t
  else if strings.HasPrefix p "suffix=" then setSuffix (strings.TrimPrefix p "suffix=") t
  else t.

Definition parseTag (str : string) : Tag :=
  match strings.Split str "," with
  | [] => zeroTag
  | n :: rest =>
      if bool_decide (rest = []) && String.eqb n "" then zeroTag
      else fold_left parseSegment rest (parseHead n zeroTag)
  end.


(** ** The parts of Go's [strconv] package the decoder uses

    [strconv] belongs to the Go standard library, not to this repository.  The
    integer parsers are modelled after its source (Go 1.13 and later: base
    prefixes [0b], [0o], [0x], a leading [0] for octal, and underscores when
    the base argument is 0), for a platform whose [int] has 64 bits.  Unsigned
    64-bit arithmetic is written on [Z] with its wrap-around. *)

Module strconv.

Definition IntSize : Z := 64.
Definition maxUint64 : Z := 2 ^ 64 - 1.

(** The [Err] field of a [*NumError]. *)
Inductive Cause : Type :=
| ErrSyntax | ErrRange | ErrBase (base : Z) | ErrBitSize (bitSize : Z).

(** [type NumError struct { Func, Num string; Err error }] *)
Record NumError : Type := mkNumError { Func : string; Num : string; Err : Cause }.

Definition byte (c : ascii) : Z := Z.of_N (N_of_ascii c).

(** [lower(c) = c | ('x' - 'X')] *)
Definition lower (c : ascii) : Z := Z.lor (byte c) 32.

Definition isDigit (c : ascii) : bool := (48 <=? byte c) && (byte c <=? 57).
Definition isLetter (c : ascii) : bool := (97 <=? lower c) && (lower c <=? 122).

(** [underscoreOK]: underscores stand only between digits, or between a base
    prefix and a digit.  [saw] is the last character class seen. *)
Inductive Saw : Type := SawStart | SawDigit | SawUnderscore | SawOther.

Fixpoint underscoreLoop (hex : bool) (saw : Saw) (s : string) : bool :=
  match s with
  | EmptyString => match saw with SawUnderscore => false | _ => true end
  | String c s' =>
      if isDigit c || (hex && (97 <=? lower c) && (lower c <=? 102))
      then underscoreLoop hex SawDigit s'
      else if Ascii.eqb c "_"
      then match saw with
           | SawDigit => underscoreLoop hex SawUnderscore s'
           | _ => false
           end
      else match saw with
           | SawUnderscore => false
           | _ => underscoreLoop hex SawOther s'
           end
  end.

Definition underscoreOK (s : string) : bool :=
  let s := match s with
           | String c s' => if Ascii.eqb c "-" || Ascii.eqb c "+" then s' else s
           | EmptyString => s
           end in
  match s with
  | String c0 (String c1 s') =>
      if Ascii.eqb c0 "0" &&
         ((lower c1 =? 98) || (lower c1 =? 111) || (lower c1 =? 120))
      then underscoreLoop (lower c1 =? 120) SawDigit s'
      else underscoreLoop false SawStart s
  | _ => underscoreLoop false SawStart s
  end.

(** The digit loop of [ParseUint]: either it leaves early with the value and
    the cause it returns, or it reaches the end of the string. *)
Inductive Scan : Type :=
| Stopped (v : Z) (e : Cause)
| Scanned (n : Z) (underscores : bool).

Fixpoint scanDigits (base0 : bool) (base cutoff maxVal : Z)
    (s : string) (n : Z) (underscores : bool) : Scan :=
  match s with
  | EmptyString => Scanned n underscores
  | String c s' =>
      if Ascii.eqb c "_" && base0
      then scanDigits base0 base cutoff maxVal s' n true
      else
        let d := if isDigit c then Some (byte c - 48)
                 else if isLetter c then Some (lower c - 97 + 10)
                 else None in
        match d with
        | None => Stopped 0 ErrSyntax
        | Some d =>
            if base <=? d then Stopped 0 ErrSyntax
            else if cutoff <=? n then Stopped maxVal ErrRange
            else
              let n := (n * base) mod 2 ^ 64 in
              let n1 := (n + d) mod 2 ^ 64 in
              if (n1 <? n) || (maxVal <? n1) then Stopped maxVal ErrRange
              else scanDigits base0 base cutoff maxVal s' n1 underscores
        end
  end.

(** The base and the digits that remain, once a prefix is read (base 0). *)
Definition basePrefix (s : string) : Z * string :=
  match s with
  | String c0 rest =>
      if Ascii.eqb c0 "0" then
        match rest with
        | String c1 (String c2 s'') =>
            if lower c1 =? 98 then (2, String c2 s'')
            else if lower c1 =? 111 then (8, String c2 s'')
            else if lower c1 =? 120 then (16, String c2 s'')
            else (8, rest)
        | _ => (8, rest)
        end
      else (10, s)
  | EmptyString => (10, s)
  end.

(** [ParseUint(s, base, bitSize)]: the value and the error it returns. *)
Definition ParseUint (s : string) (base bitSize : Z) : Z * option NumError :=
  let fnParseUint := "ParseUint" in
  if String.eqb s "" then (0, Some (mkNumError fnParseUint s ErrSyntax))
  else
    let base0 := base =? 0 in
    let s0 := s in
    if negb ((2 <=? base) && (base <=? 36) || base0)
    then (0, Some (mkNumError fnParseUint s0 (ErrBase base)))
    else
      let '(base, s) := if base0 then basePrefix s else (base, s) in
      if negb (bitSize =? 0) && ((bitSize <? 0) || (64 <? bitSize))
      then (0, Some (mkNumError fnParseUint s0 (ErrBitSize bitSize)))
      else
        let bitSize := if bitSize =? 0 then IntSize else bitSize in
        let cutoff := maxUint64 / base + 1 in
        let maxVal := 2 ^ bitSize - 1 in
        match scanDigits base0 base cutoff maxVal s 0 false with
        | Stopped v e => (v, Some (mkNumError fnParseUint s0 e))
        | Scanned n underscores =>
            if underscores && negb (underscoreOK s0)
            then (0, Some (mkNumError fnParseUint s0 ErrSyntax))
            else (n, None)
        end.

(** [int64(u)] for an unsigned 64-bit [u], and [-n] on [int64]. *)
Definition int64 (u : Z) : Z := (u + 2 ^ 63) mod 2 ^ 64 - 2 ^ 63.

(** [ParseInt(s, base, bitSize)] *)
Definition ParseInt (s : string) (base bitSize : Z) : Z * option NumError :=
  let fnParseInt := "ParseInt" in
  if String.eqb s "" then (0, Some (mkNumError fnParseInt s ErrSyntax))
  else
    let s0 := s in
    let '(neg, s) :=
      match s with
      | String c s' =>
          if Ascii.eqb c "+" then (false, s')
          else if Ascii.eqb c "-" then (true, s')
          else (false, s)
      | EmptyString => (false, s)
      end in
    let '(un, err) := ParseUint s base bitSize in
    match err with
    | Some (mkNumError _ _ ErrSyntax) => (0, Some (mkNumError fnParseInt s0 ErrSyntax))
    | Some (mkNumError _ _ (ErrBase b)) => (0, Some (mkNumError fnParseInt s0 (ErrBase b)))
    | Some (mkNumError _ _ (ErrBitSize b)) =>
        (0, Some (mkNumError fnParseInt s0 (ErrBitSize b)))
    | _ =>
        let bitSize := if bitSize =? 0 then IntSize else bitSize in
        let cutoff := 2 ^ (bitSize - 1) in
        if negb neg && (cutoff <=? un)
        then (int64 (cutoff - 1), Some (mkNumError fnParseInt s0 ErrRange))
        else if neg && (cutoff <? un)
        then (int64 (- cutoff), Some (mkNumError fnParseInt s0 ErrRange))
        else
          let n := int64 un in
          let n := if neg then int64 (- n) else n in
          (n, None)
    end.

End strconv.

(** ** Errors *)

(** [type ValidationError struct { Field, Message string }] *)
Record ValidationError : Type := mkValidationError { Field : string; Message : string }.

(** [Invalid(field, msg)], for a format string without verbs. *)
Definition Invalid (field msg : string) : ValidationError := mkValidationError field msg.

(** A non-nil value of the interface type [error], by its dynamic type.  A
    pointer is identified with what it points to. *)
Inductive error : Type :=
| ValidationErrorPtr (ve : ValidationError)           (* *ValidationError *)
| CompoundValidationError (errs : list ValidationError)
| errorString (msg : string)                           (* errors.New, fmt.Errorf *)
| NumErrorPtr (e : strconv.NumError).                  (* *strconv.NumError *)

(** The type assertion of [walk]: is the dynamic type a pointer to a
    [ValidationError]? *)
Definition asValidationError (e : error) : option ValidationError :=
  match e with
  | ValidationErrorPtr ve => Some ve
  | _ => None
  end.

(** ** Outcomes: a call returns, or panics *)

Inductive Panic : Type :=
| IndexOutOfRange                 (* val[0] on an empty slice *)
| NotSettable                     (* reflect: Set or Interface on an unexported field *)
| HookPanic (msg : string).       (* raised inside a method of the destination *)

Inductive Outcome (A : Type) : Type :=
| Returns (a : A)
| Panics (p : Panic).
Arguments Returns {A} a.
Arguments Panics {A} p.

(** Sequencing stops at the first panic; written [x ← o; k] below. *)
#[export] Instance Outcome_bind : MBind Outcome := fun A B k o =>
  match o with
  | Returns a => k a
  | Panics p => Panics p
  end.

(** ** The reflective view of the destination *)

Module reflect.

Inductive IntKind : Type := Int | Int8 | Int16 | Int32 | Int64.
Inductive UintKind : Type := Uint | Uint8 | Uint16 | Uint32 | Uint64.
Inductive FloatKind : Type := Float32 | Float64.

Definition intBits (k : IntKind) : Z :=
  match k with Int => 64 | Int8 => 8 | Int16 => 16 | Int32 => 32 | Int64 => 64 end.
Definition uintBits (k : UintKind) : Z :=
  match k with Uint => 64 | Uint8 => 8 | Uint16 => 16 | Uint32 => 32 | Uint64 => 64 end.

(** The contents of a struct field of a predeclared type.  A float is kept as
    its IEEE-754 bit pattern.  Fields of every kind the decoder does not
    support (pointers, structs, maps, ...) are [Opaque]. *)
Inductive Value : Type :=
| StringOf (s : string)
| IntOf (k : IntKind) (i : Z)
| UintOf (k : UintKind) (u : Z)
| FloatOf (k : FloatKind) (bits : Z)
| BoolOf (b : bool)
| StringsOf (l : list string)          (* []string *)
| SliceOf                              (* a slice of any other type *)
| Opaque.

(** [reflect.StructField]: the declared identifier, the value of the [form]
    key of its tag ([f.Tag.Get("form")], empty when absent), and whether the
    field is exported. *)
Record StructField : Type := mkStructField {
  FName : string;
  FTag : string;
  Exported : bool
}.

(** [SetInt] and [SetUint] store the value converted to the width of the
    field, wrapping around. *)
Definition wrapInt (k : IntKind) (x : Z) : Z :=
  (x + 2 ^ (intBits k - 1)) mod 2 ^ intBits k - 2 ^ (intBits k - 1).
Definition wrapUint (k : UintKind) (x : Z) : Z := x mod 2 ^ uintBits k.

Definition intKindString (k : IntKind) : string :=
  match k with
  | Int => "int" | Int8 => "int8" | Int16 => "int16" | Int32 => "int32" | Int64 => "int64"
  end.
Definition uintKindString (k : UintKind) : string :=
  match k with
  | Uint => "uint" | Uint8 => "uint8" | Uint16 => "uint16" | Uint32 => "uint32"
  | Uint64 => "uint64"
  end.
Definition floatKindString (k : FloatKind) : string :=
  match k with Float32 => "float32" | Float64 => "float64" end.

End reflect.

(** A method of the pointer type of the destination, called through
    [method.Func.Call] with the receiver and the values: it may change the
    fields of the struct, and returns [nil] or an error (or panics). *)
Definition Method : Type :=
  list reflect.Value -> list string -> Outcome (list reflect.Value * option error).

(** What a non-nil pointer handed to [Unmarshal] points to. *)
Inductive Target : Type :=
| StructAt (rt : list reflect.StructField) (ptrt : gmap string Method)
    (fields : list reflect.Value)
| MapAt                                   (* a map, of any type *)
| OtherAt.                                (* a value of any other kind *)

(** An element stored by [assignToMap] in a [map[string]interface{}]. *)
Inductive MapElem : Type :=
| ElemString (s : string)
| ElemStrings (l : list string).

(** The [reflect.Value] that [walk] and [findIn] receive: a non-nil pointer, or
    a [map[string]interface{}] itself. *)
Inductive RValue : Type :=
| PtrTo (t : Target)
| MapValue (m : gmap string MapElem).

(** The argument [o interface{}] of [Unmarshal]. *)
Inductive Receiver : Type :=
| NotPointer            (* nil, or a value of any kind but Ptr *)
| NilPointer
| Pointer (t : Target).

(** ** Input values *)

(** [url.Values] is [map[string][]string].  A [range] over a Go map yields its
    entries once each, in an order the language leaves open: [walk] is given
    the sequence of entries the loop goes through, and [ranges v items] says
    that [items] is one of the sequences a range over [v] may produce. *)
Definition ranges (v : gmap string (list string))
    (items : list (string * list string)) : Prop :=
  items ≡ₚ map_to_list v.

(** ** The decoder *)

Definition dquote : string := String (ascii_of_nat 34) EmptyString.

(** [fmt.Errorf] with the format of [assignToInt] and its siblings; the type
    of the field is predeclared, so its name is the name of its kind. *)
Definition cannotSet (kind : string) : error :=
  errorString ("cannot set " ++ dquote ++ kind ++ dquote ++ " (" ++ kind ++ ")").

(** The error of [findIn]; the type of a pointer has no name. *)
Definition cannotStore : error :=
  errorString ("object " ++ "" ++ " cannot be used to store values").

(** [strconv.ParseBool] *)
Definition ParseBool (str : string) : bool * option strconv.NumError :=
  if existsb (String.eqb str) ["1"; "t"; "T"; "true"; "TRUE"; "True"]
  then (true, None)
  else if existsb (String.eqb str) ["0"; "f"; "F"; "false"; "FALSE"; "False"]
  then (false, None)
  else (false, Some (strconv.mkNumError "ParseBool" str strconv.ErrSyntax)).

(** [empty] reports whether [v] has no element, or one element of length 0. *)
Definition empty (v : list string) : bool :=
  match v with
  | [] => true
  | v0 :: _ => Nat.eqb (length v) 1 && Nat.eqb (String.length v0) 0
  end.

(** The string the numeric cases of [assignToStructField] parse. *)
Definition chosen (val : list string) : string :=
  if negb (empty val) then match val with v0 :: _ => v0 | [] => "0" end else "0".

Definition liftErr (e : option strconv.NumError) : option error := NumErrorPtr <$> e.

(** ** Fixtures

    The struct types of the tests of the package, with their methods, and one
    struct whose setter reports its failure with [Invalid]. *)

(** An exported field. *)
Definition field (name tag : string) : reflect.StructField :=
  reflect.mkStructField name tag true.

Module FixtureAddress.

(** [Street], [City] and [State] are strings tagged [street], [city] and
    [state]; [Zip] is an [int] tagged [zip]. *)
Definition rt : list reflect.StructField :=
  [field "Street" "street"; field "City" "city"; field "State" "state";
   field "Zip" "zip"].

Definition zero : list reflect.Value :=
  [reflect.StringOf ""; reflect.StringOf ""; reflect.StringOf "";
   reflect.IntOf reflect.Int 0].

Definition FormValidateState : Method := fun f vs =>
  match vs with
  | [] => Returns (f, Some (ValidationErrorPtr (mkValidationError "state" "state is required")))
  | v0 :: _ =>
      if String.eqb v0 ""
      then Returns (f, Some (ValidationErrorPtr
                               (mkValidationError "state" "state is required")))
      else if negb (String.eqb v0 "Illinois")
      then Returns (f, Some (ValidationErrorPtr
                               (mkValidationError "state" "unknown state")))
      else Returns (f, None)
  end.

Definition FormValidateStreet : Method := fun f vs =>
  match vs with
  | [] => Panics IndexOutOfRange
  | v0 :: _ =>
      if String.eqb v0 "FAIL"
      then Returns (f, Some (ValidationErrorPtr
                               (mkValidationError "street" "street cannot be FAIL")))
      else Returns (f, None)
  end.

Definition FormSetCity : Method := fun f vs =>
  match vs with
  | [] => Returns (f, Some (errorString "city is required"))
  | v0 :: _ => Returns (<[1%nat := reflect.StringOf (strings.ToLower v0)]> f, None)
  end.

Definition ptrt : gmap string Method :=
  <["FormValidateState" := FormValidateState]>
    (<["FormValidateStreet" := FormValidateStreet]>
       (<["FormSetCity" := FormSetCity]> ∅)).

(** What a pointer to a struct with these fields points to. *)
Definition at_ (fields : list reflect.Value) : Target := StructAt rt ptrt fields.

End FixtureAddress.

Module ExampleForm.

(** Two tagged strings, two pointers to an address marked as groups, and a
    bool the tag [-] excludes. *)
Definition rt : list reflect.StructField :=
  [field "FirstName" "first_name"; field "LastName" "last_name";
   field "HomeAddress" "+,omitempty";
   field "MailingAddress" "+,omitempty,prefix=mail_";
   field "Processed" "-"].

Definition at_ (first last : string) (processed : bool) : Target :=
  StructAt rt ∅
    [reflect.StringOf first; reflect.StringOf last; reflect.Opaque; reflect.Opaque;
     reflect.BoolOf processed].

End ExampleForm.

Module NamePair.

(** Two string fields; only [FirstName] has a tag, [first_name]. *)
Definition rt : list reflect.StructField :=
  [field "FirstName" "first_name"; field "LastName" ""].

Definition at_ (first last : string) : Target :=
  StructAt rt ∅ [reflect.StringOf first; reflect.StringOf last].

End NamePair.

Module Signup.

(** A string [Email] tagged [email] and an [int] [Age] tagged [age]; the
    setter of [Email] refuses an empty address with [Invalid], and stores
    any other. *)
Definition rt : list reflect.StructField :=
  [field "Email" "email"; field "Age" "age"].

Definition FormSetEmail : Method := fun f vs =>
  if empty vs
  then Returns (f, Some (ValidationErrorPtr (Invalid "email" "email is required")))
  else match vs with
       | v0 :: _ => Returns (<[0%nat := reflect.StringOf v0]> f, None)
       | [] => Panics IndexOutOfRange
       end.

Definition ptrt : gmap string Method := <["FormSetEmail" := FormSetEmail]> ∅.

Definition at_ (email : string) (age : Z) : Target :=
  StructAt rt ptrt [reflect.StringOf email; reflect.IntOf reflect.Int age].

End Signup.

(** A float parser that accepts nothing, and a conversion that changes
    nothing: they stand for the two parameters in examples without floats. *)
Definition noFloat (s : string) : Z * option strconv.NumError :=
  (0, Some (strconv.mkNumError "ParseFloat" s strconv.ErrSyntax)).
Definition sameBits (x : Z) : Z := x.

Section Decoder.

(** [strconv.ParseFloat(s, 64)] and the conversion [float32(x)], on bit
    patterns.  Floating-point parsing is not modelled: both are parameters. *)
Variable ParseFloat : string -> Z * option strconv.NumError.
Variable float32 : Z -> Z.

(** [assignToInt], for a field of kind [k] that may be set or not
    ([rvv.CanSet()]) and holds [cur]: the new contents and the error. *)
Definition assignToInt (canSet : bool) (k : reflect.IntKind) (cur : Z) (val : string)
    : Z * option error :=
  if negb canSet then (cur, Some (cannotSet (reflect.intKindString k)))
  else
    let '(ival, err) := strconv.ParseInt val 0 0 in
    match err with
    | Some e => (cur, Some (NumErrorPtr e))
    | None => (reflect.wrapInt k ival, None)
    end.

Definition assignToUint (canSet : bool) (k : reflect.UintKind) (cur : Z) (val : string)
    : Z * option error :=
  if negb canSet then (cur, Some (cannotSet (reflect.uintKindString k)))
  else
    let '(ival, err) := strconv.ParseUint val 0 0 in
    match err with
    | Some e => (cur, Some (NumErrorPtr e))
    | None => (reflect.wrapUint k ival, None)
    end.

Definition assignToFloat (canSet : bool) (k : reflect.FloatKind) (cur : Z) (val : string)
    : Z * option error :=
  if negb canSet then (cur, Some (cannotSet (reflect.floatKindString k)))
  else
    let '(ival, err) := ParseFloat val in
    match err with
    | Some e => (cur, Some (NumErrorPtr e))
    | None =>
        (match k with reflect.Float32 => float32 ival | reflect.Float64 => ival end, None)
    end.

(** [assignToStructField(rv, val)]: [rv] is the field, with its contents and
    whether it can be set.  The result is the new contents and the error
    returned; an index out of range or a [Set] that reflect refuses panics. *)
Definition assignToStructField (canSet : bool) (rv : reflect.Value) (val : list string)
    : Outcome (reflect.Value * option error) :=
  match rv with
  | reflect.StringOf _ =>
      match val with
      | [] => Panics IndexOutOfRange
      | v0 :: _ =>
          if canSet then Returns (reflect.StringOf v0, None) else Panics NotSettable
      end
  | reflect.IntOf k cur =>
      let '(i, err) := assignToInt canSet k cur (chosen val) in
      Returns (reflect.IntOf k i, err)
  | reflect.UintOf k cur =>
      let '(u, err) := assignToUint canSet k cur (chosen val) in
      Returns (reflect.UintOf k u, err)
  | reflect.FloatOf k cur =>
      let '(x, err) := assignToFloat canSet k cur (chosen val) in
      Returns (reflect.FloatOf k x, err)
  | reflect.BoolOf _ =>
      match val with
      | [] => Panics IndexOutOfRange
      | v0 :: _ =>
          let '(b, err) := ParseBool v0 in
          if canSet then Returns (reflect.BoolOf b, liftErr err) else Panics NotSettable
      end
  | reflect.StringsOf _ =>
      if canSet then Returns (reflect.StringsOf val, None) else Panics NotSettable
  | reflect.SliceOf =>
      if canSet
      then Returns (reflect.SliceOf, Some (errorString "Only string slices are supported."))
      else Panics NotSettable
  | reflect.Opaque => Returns (reflect.Opaque, Some (errorString "Unsupported kind"))
  end.

(** [method.Func.Call]; a nil first result is the nil error. *)
Definition callFormMethod (method : Method) (target : list reflect.Value)
    (values : list string) : Outcome (list reflect.Value * option error) :=
  method target values.

(** [rv.FieldByName(name)]: the index of the field of that name, if any. *)
Definition FieldByName (rt : list reflect.StructField) (name : string) : option nat :=
  fst <$> list_find (fun f => reflect.FName f = name) rt.

(** The tag of a field as [assignToStruct] and [Tags] resolve it. *)
Definition resolveTag (f : reflect.StructField) : Tag :=
  let tag := parseTag (reflect.FTag f) in
  if negb (Ignore tag) && String.eqb (Name tag) "" then setName (reflect.FName f) tag
  else tag.

(** The validator step of [assignToStruct]: the method [FormValidate] followed
    by the name of the field is called when the pointer type has it. *)
Definition validate (ptrt : gmap string Method) (f : reflect.StructField)
    (fields : list reflect.Value) (values : list string)
    : Outcome (list reflect.Value * option error) :=
  match ptrt !! ("FormValidate" ++ reflect.FName f) with
  | Some m => callFormMethod m fields values
  | None => Returns (fields, None)
  end.

(** The raw assignment of [assignToStruct]: the error of the coercion is
    not returned. *)
Definition assignRaw (rt : list reflect.StructField) (f : reflect.StructField)
    (fields : list reflect.Value) (values : list string)
    : Outcome (list reflect.Value * option error) :=
  match FieldByName rt (reflect.FName f) with
  | Some i =>
      match fields !! i with
      | Some rv =>
          '(rv', _) ← assignToStructField (reflect.Exported f) rv values;
          Returns (<[i := rv']> fields, None)
      | None => Returns (fields, None)
      end
  | None => Returns (fields, None)
  end.

(** What [assignToStruct] does with the field [f] once its name matched. *)
Definition assignMatched (rt : list reflect.StructField) (ptrt : gmap string Method)
    (f : reflect.StructField) (fields : list reflect.Value) (values : list string)
    : Outcome (list reflect.Value * option error) :=
  '(fields, verr) ← validate ptrt f fields values;
  match verr with
  | Some err => Returns (fields, Some err)
  | None =>
      match ptrt !! ("FormSet" ++ reflect.FName f) with
      | Some m => callFormMethod m fields values
      | None => assignRaw rt f fields values
      end
  end.

(** The loop of [assignToStruct] from field [i] on; [fs] are the fields of
    the struct type that remain to be looked at. *)
Fixpoint assignFrom (rt : list reflect.StructField) (ptrt : gmap string Method)
    (fs : list reflect.StructField) (fields : list reflect.Value)
    (key : string) (values : list string)
    : Outcome (list reflect.Value * option error) :=
  match fs with
  | [] => Returns (fields, None)
  | f :: fs' =>
      if String.eqb (Name (resolveTag f)) key
      then assignMatched rt ptrt f fields values
      else assignFrom rt ptrt fs' fields key values
  end.

Definition assignToStruct (rt : list reflect.StructField) (ptrt : gmap string Method)
    (fields : list reflect.Value) (key : string) (values : list string)
    : Outcome (list reflect.Value * option error) :=
  assignFrom rt ptrt rt fields key values.

(** [assignToMap] on a [map[string]interface{}]; storing a string or a
    string slice in it cannot panic, and the error returned is nil. *)
Definition assignToMap (m : gmap string MapElem) (key : string) (values : list string)
    : gmap string MapElem * option error :=
  match values with
  | [] => (m, None)
  | [v0] => (<[key := ElemString v0]> m, None)
  | _ => (<[key := ElemStrings values]> m, None)
  end.

(** [findIn]: the switch is on the kind of [reflect.Indirect(rv)]; in the
    map case the type assertion is on [rv] itself, so it fails for a pointer. *)
Definition findIn (rv : RValue) (key : string) (values : list string)
    : Outcome (RValue * option error) :=
  match rv with
  | MapValue m =>
      let '(m', err) := assignToMap m key values in Returns (MapValue m', err)
  | PtrTo (StructAt rt ptrt fields) =>
      '(fields', err) ← assignToStruct rt ptrt fields key values;
      Returns (PtrTo (StructAt rt ptrt fields'), err)
  | PtrTo MapAt => Returns (rv, Some cannotStore)
  | PtrTo OtherAt => Returns (rv, Some cannotStore)
  end.

(** The loop of [walk] over the entries that remain, with the validation
    errors gathered so far. *)
Fixpoint walkFrom (val : RValue) (verrs : list ValidationError)
    (v : list (string * list string)) : Outcome (RValue * option error) :=
  match v with
  | [] =>
      Returns (val, if (0 <? length verrs)%nat
                    then Some (CompoundValidationError verrs) else None)
  | (key, vals) :: rest =>
      '(val', e) ← findIn val key vals;
      match e with
      | None => walkFrom val' verrs rest
      | Some e =>
          match asValidationError e with
          | Some ve => walkFrom val' (verrs ++ [ve]) rest
          | None => Returns (val', Some e)
          end
      end
  end.

Definition walk (val : RValue) (v : list (string * list string))
    : Outcome (RValue * option error) :=
  walkFrom val [] v.

(** [Unmarshal(v, o)], for the order [v] in which the entries are ranged
    over: what [o] points to afterwards, and the error returned. *)
Definition Unmarshal (v : list (string * list string)) (o : Receiver)
    : Outcome (Receiver * option error) :=
  match o with
  | Pointer t =>
      '(val, err) ← walk (PtrTo t) v;
      Returns (match val with PtrTo t' => Pointer t' | MapValue _ => o end, err)
  | _ => Returns (o, Some (errorString "unmarshal requires a pointer to a receiver"))
  end.

(** [Tags(o)]; [t] is what [reflect.Indirect] shows of [o], a struct or a
    pointer to one, or something else. *)
Definition Tags (t : Target) : list Tag :=
  match t with
  | StructAt rt _ _ => map resolveTag rt
  | _ => []
  end.

(** ** Specification notions *)

(** The field a key resolves to: the first field, in declaration order, whose
    resolved tag name is the key. *)
Fixpoint findByKey (rt : list reflect.StructField) (key : string)
    : option reflect.StructField :=
  match rt with
  | [] => None
  | f :: rt' => if String.eqb (Name (resolveTag f)) key then Some f else findByKey rt' key
  end.

(** [Scans val v ves val']: starting from [val], the loop of [walk] goes
    through every entry of [v] without a fatal error or a panic, meets the
    validation errors [ves], in this order, and leaves [val']. *)
Inductive Scans : RValue -> list (string * list string) ->
    list ValidationError -> RValue -> Prop :=
| Scans_done val : Scans val [] [] val
| Scans_assigned val key vals rest val1 ves val' :
    findIn val key vals = Returns (val1, None) ->
    Scans val1 rest ves val' ->
    Scans val ((key, vals) :: rest) ves val'
| Scans_invalid val key vals rest val1 ve ves val' :
    findIn val key vals = Returns (val1, Some (ValidationErrorPtr ve)) ->
    Scans val1 rest ves val' ->
    Scans val ((key, vals) :: rest) (ve :: ves) val'.

(** ** Segments of a tag *)

Fixpoint hasByte (c : ascii) (s : string) : bool :=
  match s with
  | EmptyString => false
  | String c' s' => Ascii.eqb c' c || hasByte c s'
  end.

(** A segment after the first that [parseTag] does not recognise. *)
Definition unrecognised (p : string) : Prop :=
  p <> "omitempty" /\ strings.HasPrefix p "prefix=" = false /\
  strings.HasPrefix p "suffix=" = false.

(** Segments that set the same field of the tag agree: no two different
    [prefix=] segments and no two different [suffix=] segments. *)
Definition agreeing (segs : list string) : Prop :=
  forall p q, In p segs -> In q segs ->
    (strings.HasPrefix p "prefix=" = true -> strings.HasPrefix q "prefix=" = true -> p = q) /\
    (strings.HasPrefix p "suffix=" = true -> strings.HasPrefix q "suffix=" = true -> p = q).

(** The value a tag ends with for [prefix=] or [suffix=]: that of the last
    segment that starts with [pre], or [d] when there is none. *)
Definition lastOf (pre : string) (segs : list string) (d : string) : string :=
  fold_left (fun acc p => if strings.HasPrefix p pre then strings.TrimPrefix p pre else acc)
    segs d.

(** ** Notions for the properties of the whole decoder *)

(** [rv.Kind()], for the contents of a field. *)
Inductive Kind : Type :=
| KString | KInt (k : reflect.IntKind) | KUint (k : reflect.UintKind)
| KFloat (k : reflect.FloatKind) | KBool | KSlice | KOther.

Definition kindOf (rv : reflect.Value) : Kind :=
  match rv with
  | reflect.StringOf _ => KString
  | reflect.IntOf k _ => KInt k
  | reflect.UintOf k _ => KUint k
  | reflect.FloatOf k _ => KFloat k
  | reflect.BoolOf _ => KBool
  | reflect.StringsOf _ | reflect.SliceOf => KSlice
  | reflect.Opaque => KOther
  end.

(** The fields the numeric cases of [assignToStructField] handle. *)
Definition numeric (rv : reflect.Value) : bool :=
  match rv with
  | reflect.IntOf _ _ | reflect.UintOf _ _ | reflect.FloatOf _ _ => true
  | _ => false
  end.

(** The fields of a kind the decoder does not support. *)
Definition unsupported (rv : reflect.Value) : bool :=
  match rv with
  | reflect.Opaque => true
  | _ => false
  end.

(** Is the destination a non-nil pointer to a struct? *)
Definition isStructPointer (o : Receiver) : bool :=
  match o with
  | Pointer (StructAt _ _ _) => true
  | _ => false
  end.

(** What [assignToMap] stores for a list of values, if anything. *)
Definition stored (values : list string) : option MapElem :=
  match values with
  | [] => None
  | [v0] => Some (ElemString v0)
  | _ => Some (ElemStrings values)
  end.

(** The index of the field a key leads to: the field the key resolves to,
    found again by its name, as [assignToStruct] does. *)
Definition target (rt : list reflect.StructField) (key : string) : option nat :=
  match findByKey rt key with
  | Some f => FieldByName rt (reflect.FName f)
  | None => None
  end.

(** The contents of a settable field after its coercion from [val]; the
    field as it was, where the coercion panics. *)
Definition coerced (rv : reflect.Value) (val : list string) : reflect.Value :=
  match assignToStructField true rv val with
  | Returns (rv', _) => rv'
  | Panics _ => rv
  end.

(** The fields of a struct without hooks after one entry of the input. *)
Definition rawStep (rt : list reflect.StructField)
    (fields : list reflect.Value) (entry : string * list string) : list reflect.Value :=
  match target rt entry.1 with
  | Some i =>
      match fields !! i with
      | Some rv => <[i := coerced rv entry.2]> fields
      | None => fields
      end
  | None => fields
  end.

(** The fields after a sequence of entries. *)
Definition decoded (rt : list reflect.StructField) (items : list (string * list string))
    (fields : list reflect.Value) : list reflect.Value :=
  foldl (rawStep rt) fields items.

(** [strings.Join(parts, sep)] for a separator of any length. *)
Fixpoint JoinWith (parts : list string) (sep : string) : string :=
  match parts with
  | [] => ""
  | [p] => p
  | p :: ps => p ++ sep ++ JoinWith ps sep
  end.

(** [strings.Repeat(s, n)] *)
Fixpoint Repeat (s : string) (n : nat) : string :=
  match n with
  | O => ""
  | S n' => s ++ Repeat s n'
  end.

(** [func (e ValidationError) Error() string] *)
Definition ValidationError_Error (e : ValidationError) : string := Message e.

(** [func (c CompoundValidationError) Error() string]: the messages are
    appended to an empty slice and joined. *)
Definition CompoundValidationError_Error (errs : list ValidationError) : string :=
  let msg := foldl (fun msg e => msg ++ [ValidationError_Error e])%list [] errs in
  "validation errors occurred: " ++ JoinWith msg "; ".

(** The same method in the earlier copy of the file: the messages are
    appended to a slice made with [len(c.errs)] empty strings in it. *)
Definition CompoundValidationError_Error_earlier (errs : list ValidationError) : string :=
  let msg := foldl (fun msg e => msg ++ [ValidationError_Error e])%list
               (replicate (length errs) "") errs in
  "multiple validation errors occurred: " ++ JoinWith msg "; ".

(** What [walk] stores in a [map[string]interface{}] for one entry. *)
Definition mapStep (m : gmap string MapElem) (entry : string * list string)
    : gmap string MapElem :=
  match stored entry.2 with
  | Some x => <[entry.1 := x]> m
  | None => m
  end.

(** The struct of the example program: two strings tagged [first_name] and
    [last_name], and an [int] tagged [age]; no hooks. *)
Definition Person_rt : list reflect.StructField :=
  [field "FirstName" "first_name"; field "LastName" "last_name"; field "Age" "age"].

Definition Person_at (first last : string) (age : Z) : Target :=
  StructAt Person_rt ∅
    [reflect.StringOf first; reflect.StringOf last; reflect.IntOf reflect.Int age].

(** A struct with an unexported counter and an exported name; no hooks. *)
Definition Counter_rt : list reflect.StructField :=
  [reflect.mkStructField "hits" "hits" false; field "Name" "name"].

Definition Counter_at (hits : Z) (name : string) : Target :=
  StructAt Counter_rt ∅ [reflect.IntOf reflect.Int hits; reflect.StringOf name].

(** * Properties *)

(** ** The tag parser *)

Section SplitJoin.

Variable sep : ascii.

Lemma Split_not_nil (s : string) : strings.Split s sep <> [].
Proof.
  induction s as [|c s IH]; simpl; [discriminate|].
  destruct (Ascii.eqb c sep); [discriminate|].
  destruct (strings.Split s sep); discriminate.
Qed.

Lemma Split_no_sep (p : string) :
  hasByte sep p = false -> strings.Split p sep = [p].
Proof.
  induction p as [|c p IH]; simpl; intros H; [reflexivity|].
  apply orb_false_iff in H as [Hc Hp].
  rewrite Hc, (IH Hp). reflexivity.
Qed.

Lemma Split_app_sep (p s : string) :
  hasByte sep p = false ->
  strings.Split (p ++ String sep s) sep = p :: strings.Split s sep.
Proof.
  induction p as [|c p IH]; simpl; intros H.
  - rewrite Ascii.eqb_refl. reflexivity.
  - apply orb_false_iff in H as [Hc Hp].
    rewrite Hc, (IH Hp). reflexivity.
Qed.

(** Splitting what [Join] built gives the parts back, when no part holds
    the separator. *)
Lemma Split_Join (p : string) (ps : list string) :
  Forall (fun q => hasByte sep q = false) (p :: ps) ->
  strings.Split (strings.Join (p :: ps) sep) sep = p :: ps.
Proof.
  revert p. induction ps as [|q ps IH]; intros p H.
  - apply Split_no_sep. now inversion H.
  - inversion H as [|? ? Hp Hps]; subst.
    change (strings.Join (p :: q :: ps) sep)
      with (p ++ String sep (strings.Join (q :: ps) sep)).
    rewrite (Split_app_sep _ _ Hp), (IH q Hps). reflexivity.
Qed.

End SplitJoin.

(** [parseTag] folds the segments after the first over the descriptor the
    first one gives; the early return for the empty string agrees with it. *)
Lemma parseTag_parts (str n : string) (rest : list string) :
  strings.Split str "," = n :: rest ->
  parseTag str = fold_left parseSegment rest (parseHead n zeroTag).
Proof.
  intros H. unfold parseTag. rewrite H.
  destruct rest as [|p rest]; simpl; [|reflexivity].
  destruct (String.eqb_spec n ""); subst; reflexivity.
Qed.

Lemma parseSegment_unrecognised (t : Tag) (p : string) :
  unrecognised p -> parseSegment t p = t.
Proof.
  intros (Ho & Hp & Hs). unfold parseSegment.
  destruct (String.eqb_spec p "omitempty"); [contradiction|].
  rewrite Hp, Hs. reflexivity.
Qed.

(** No segment after the first touches the name or the two markers. *)
Lemma parseSegment_keeps (t : Tag) (p : string) :
  Name (parseSegment t p) = Name t /\ Ignore (parseSegment t p) = Ignore t /\
  Group (parseSegment t p) = Group t.
Proof.
  unfold parseSegment.
  destruct (String.eqb p "omitempty"); [easy|].
  destruct (strings.HasPrefix p "prefix="); [easy|].
  destruct (strings.HasPrefix p "suffix="); easy.
Qed.

Lemma fold_parseSegment_keeps (rest : list string) (t : Tag) :
  Name (fold_left parseSegment rest t) = Name t /\
  Ignore (fold_left parseSegment rest t) = Ignore t /\
  Group (fold_left parseSegment rest t) = Group t.
Proof.
  revert t. induction rest as [|p rest IH]; intros t; simpl; [easy|].
  destruct (IH (parseSegment t p)) as (-> & -> & ->). apply parseSegment_keeps.
Qed.

(** An ignored field has an empty tag name. *)
Lemma parseTag_ignore_name (str : string) :
  Ignore (parseTag str) = true -> Name (parseTag str) = "".
Proof.
  destruct (strings.Split str ",") as [|n rest] eqn:E.
  - now apply Split_not_nil in E.
  - rewrite (parseTag_parts _ _ _ E).
    destruct (fold_parseSegment_keeps rest (parseHead n zeroTag)) as (-> & -> & _).
    unfold parseHead.
    destruct (String.eqb n "+"); [discriminate|].
    destruct (String.eqb n "-"); [reflexivity|discriminate].
Qed.

Lemma resolveTag_ignore_name (f : reflect.StructField) :
  Ignore (parseTag (reflect.FTag f)) = true -> Name (resolveTag f) = "".
Proof.
  intros H. unfold resolveTag. rewrite H. simpl. now apply parseTag_ignore_name.
Qed.

(** Two segments that agree can be applied in either order. *)
Lemma parseSegment_swap (t : Tag) (p q : string) :
  (strings.HasPrefix p "prefix=" = true -> strings.HasPrefix q "prefix=" = true -> p = q) ->
  (strings.HasPrefix p "suffix=" = true -> strings.HasPrefix q "suffix=" = true -> p = q) ->
  parseSegment (parseSegment t p) q = parseSegment (parseSegment t q) p.
Proof.
  intros Hpre Hsuf. unfold parseSegment.
  destruct (String.eqb p "omitempty") eqn:Ep, (String.eqb q "omitempty") eqn:Eq;
    destruct (strings.HasPrefix p "prefix=") eqn:Pp,
             (strings.HasPrefix q "prefix=") eqn:Pq;
    destruct (strings.HasPrefix p "suffix=") eqn:Sp,
             (strings.HasPrefix q "suffix=") eqn:Sq;
    try reflexivity;
    try (rewrite (Hpre eq_refl eq_refl); reflexivity);
    try (rewrite (Hsuf eq_refl eq_refl); reflexivity).
Qed.

Lemma fold_parseSegment_perm (l l' : list string) :
  Permutation l l' -> agreeing l ->
  forall t, fold_left parseSegment l t = fold_left parseSegment l' t.
Proof.
  induction 1 as [|x l l' HP IH|x y l|l l' l'' HP IH HP' IH']; intros Hag t; simpl.
  - reflexivity.
  - apply IH. intros p q Hp Hq. apply Hag; now right.
  - f_equal. destruct (Hag y x) as [H1 H2]; [now left|now right; left|].
    now apply parseSegment_swap.
  - rewrite IH by assumption. apply IH'.
    intros p q Hp Hq.
    apply Hag; [apply (Permutation_in p (Permutation_sym HP) Hp)
               |apply (Permutation_in q (Permutation_sym HP) Hq)].
Qed.

(** A segment is matched by at most one of the three cases. *)
Lemma prefix_not_suffix (p : string) :
  strings.HasPrefix p "prefix=" = true -> strings.HasPrefix p "suffix=" = false.
Proof.
  unfold strings.HasPrefix. destruct p as [|c p]; [discriminate|].
  cbn [String.prefix].
  destruct (ascii_dec "p" c) as [<-|]; [intros _; reflexivity|discriminate].
Qed.

(** Each field of the descriptor depends on the segments through its own
    case alone: [Omit] on whether [omitempty] is among them, [Prefix] and
    [Suffix] on the last segment of their form. *)
Lemma fold_parseSegment_fields (rest : list string) (t : Tag) :
  Omit (fold_left parseSegment rest t) = Omit t || existsb (String.eqb "omitempty") rest /\
  Prefix (fold_left parseSegment rest t) = lastOf "prefix=" rest (Prefix t) /\
  Suffix (fold_left parseSegment rest t) = lastOf "suffix=" rest (Suffix t).
Proof.
  unfold lastOf. revert t.
  induction rest as [|p rest IH]; intros t; cbn [fold_left existsb].
  - now rewrite orb_false_r.
  - destruct (IH (parseSegment t p)) as (-> & -> & ->). unfold parseSegment.
    destruct (String.eqb_spec p "omitempty") as [->|Hp].
    + split; [|split]; try reflexivity. cbn [Omit setOmit].
      rewrite String.eqb_refl. cbn [orb]. now rewrite orb_true_r.
    + assert (String.eqb "omitempty" p = false) as ->
        by (destruct (String.eqb_spec "omitempty" p); congruence).
      cbn [orb].
      destruct (strings.HasPrefix p "prefix=") eqn:Hpre.
      * rewrite (prefix_not_suffix _ Hpre). easy.
      * destruct (strings.HasPrefix p "suffix="); easy.
Qed.

(** ** The decode engine *)

(** Runs a bind whose first outcome is known. *)
Ltac run_bind := unfold mbind, Outcome_bind; cbv beta iota.

(** The loop of [assignToStruct] stops at the field the key resolves to. *)
Lemma assignFrom_findByKey rt ptrt fs fields key values :
  assignFrom rt ptrt fs fields key values =
  match findByKey fs key with
  | Some f => assignMatched rt ptrt f fields values
  | None => Returns (fields, None)
  end.
Proof.
  induction fs as [|f fs IH]; simpl; [reflexivity|].
  destruct (String.eqb (Name (resolveTag f)) key); [reflexivity|apply IH].
Qed.

(** [findIn] on a pointer to a struct whose field [f] the key resolves to. *)
Lemma findIn_matched rt ptrt fields key values f :
  findByKey rt key = Some f ->
  findIn (PtrTo (StructAt rt ptrt fields)) key values =
  '(fields', err) ← assignMatched rt ptrt f fields values;
  Returns (PtrTo (StructAt rt ptrt fields'), err).
Proof.
  intros H. simpl. unfold assignToStruct. rewrite assignFrom_findByKey, H. reflexivity.
Qed.

(** A key no field resolves to is skipped. *)
Lemma findIn_skipped rt ptrt fields key values :
  findByKey rt key = None ->
  findIn (PtrTo (StructAt rt ptrt fields)) key values =
  Returns (PtrTo (StructAt rt ptrt fields), None).
Proof.
  intros H. simpl. unfold assignToStruct. rewrite assignFrom_findByKey, H. reflexivity.
Qed.

(** A validator that returns an error ends the work on the key. *)
Lemma assignMatched_invalid rt ptrt f fields values fields1 e :
  validate ptrt f fields values = Returns (fields1, Some e) ->
  assignMatched rt ptrt f fields values = Returns (fields1, Some e).
Proof. intros H. unfold assignMatched. rewrite H. reflexivity. Qed.

(** With a setter, the key is left to it, and its error is returned. *)
Lemma assignMatched_setter rt ptrt f fields values fields1 (m : Method) :
  validate ptrt f fields values = Returns (fields1, None) ->
  ptrt !! ("FormSet" ++ reflect.FName f) = Some m ->
  assignMatched rt ptrt f fields values = m fields1 values.
Proof. intros H Hm. unfold assignMatched. rewrite H. run_bind. rewrite Hm. reflexivity. Qed.

(** Without a setter the raw assignment is made. *)
Lemma assignMatched_raw rt ptrt f fields values fields1 :
  validate ptrt f fields values = Returns (fields1, None) ->
  ptrt !! ("FormSet" ++ reflect.FName f) = None ->
  assignMatched rt ptrt f fields values = assignRaw rt f fields1 values.
Proof. intros H Hm. unfold assignMatched. rewrite H. run_bind. rewrite Hm. reflexivity. Qed.

(** The raw assignment never returns an error. *)
Lemma assignRaw_no_error rt f fields values fields' e :
  assignRaw rt f fields values = Returns (fields', e) -> e = None.
Proof.
  unfold assignRaw.
  destruct (FieldByName rt (reflect.FName f)) as [i|]; [|now inversion 1].
  destruct (fields !! i) as [rv|]; [|now inversion 1].
  destruct (assignToStructField (reflect.Exported f) rv values) as [[rv' err]|p];
    simpl; now inversion 1.
Qed.

(** One step of the loop of [walk], by what [findIn] returned. *)
Lemma walkFrom_step val verrs key vals rest val1 e :
  findIn val key vals = Returns (val1, e) ->
  walkFrom val verrs ((key, vals) :: rest) =
  match e with
  | None => walkFrom val1 verrs rest
  | Some (ValidationErrorPtr ve) => walkFrom val1 (verrs ++ [ve]) rest
  | Some e => Returns (val1, Some e)
  end.
Proof.
  intros H. cbn [walkFrom]. rewrite H. run_bind. destruct e as [[]|]; reflexivity.
Qed.

(** A scan that completes takes the loop to its end state, with the
    validation errors it met added to those gathered before. *)
Lemma walkFrom_Scans val pre ves val1 :
  Scans val pre ves val1 ->
  forall verrs rest,
    walkFrom val verrs (pre ++ rest) = walkFrom val1 (verrs ++ ves) rest.
Proof.
  induction 1 as [val|val key vals pre val1 ves val' Hf _ IH
                 |val key vals pre val1 ve ves val' Hf _ IH]; intros verrs rest.
  - now rewrite app_nil_r.
  - rewrite <- app_comm_cons, (walkFrom_step _ _ _ _ _ _ _ Hf). apply IH.
  - rewrite <- app_comm_cons, (walkFrom_step _ _ _ _ _ _ _ Hf), IH.
    now rewrite <- app_assoc.
Qed.

Lemma walk_Scans val v ves val' :
  Scans val v ves val' ->
  walk val v =
  Returns (val', match ves with
                 | [] => None
                 | _ => Some (CompoundValidationError ves)
                 end).
Proof.
  intros H. unfold walk.
  rewrite <- (app_nil_r v), (walkFrom_Scans _ _ _ _ H). simpl.
  destruct ves; reflexivity.
Qed.

(** Every scan either completes, or stops at some entry, where [findIn]
    panics or returns an error that is not a validation error. *)
Lemma scan_completes_or_stops val v :
  (exists ves val', Scans val v ves val') \/
  (exists pre key vals rest ves val1,
      v = (pre ++ (key, vals) :: rest)%list /\ Scans val pre ves val1 /\
      ((exists p, findIn val1 key vals = Panics p) \/
       (exists val2 e, findIn val1 key vals = Returns (val2, Some e) /\
                       asValidationError e = None))).
Proof.
  revert val. induction v as [|[key vals] v IH]; intros val.
  - left. exists [], val. constructor.
  - destruct (findIn val key vals) as [[val1 [e|]]|p] eqn:Hf.
    + destruct (asValidationError e) as [ve|] eqn:He.
      * destruct e; try discriminate He. injection He as <-.
        destruct (IH val1) as [(ves & val' & HS)
                              |(pre & k & vs & rest & ves & val2 & -> & HS & Hstop)].
        -- left. exists (ve0 :: ves), val'. eapply Scans_invalid; eassumption.
        -- right. exists ((key, vals) :: pre), k, vs, rest, (ve0 :: ves), val2.
           split; [reflexivity|]. split; [|exact Hstop].
           eapply Scans_invalid; eassumption.
      * right. exists [], key, vals, v, [], val.
        split; [reflexivity|]. split; [constructor|].
        right. exists val1, e. now split.
    + destruct (IH val1) as [(ves & val' & HS)
                            |(pre & k & vs & rest & ves & val2 & -> & HS & Hstop)].
      * left. exists ves, val'. eapply Scans_assigned; eassumption.
      * right. exists ((key, vals) :: pre), k, vs, rest, ves, val2.
        split; [reflexivity|]. split; [|exact Hstop].
        eapply Scans_assigned; eassumption.
    + right. exists [], key, vals, v, [], val.
      split; [reflexivity|]. split; [constructor|].
      left. now exists p.
Qed.

(** ** Validation errors are gathered, other errors are fatal *)

(** C1.  Validation failures are collected over one [Unmarshal] call.  When the
    validator of the field a key resolves to returns a validation error, the
    engine does nothing more for that key: the setter is not called and no
    assignment is made, so the struct is as the validator left it.  The scan
    then goes on with the remaining keys, the error added to the list.  And
    when the scan of the whole input completes (no fatal error, no panic),
    [Unmarshal] returns the compound error made of exactly the validation
    errors met, in the order met, or nil when there were none. *)
Theorem validation_failures_collected :
  (forall rt ptrt fields key values f fields1 ve,
      findByKey rt key = Some f ->
      validate ptrt f fields values = Returns (fields1, Some (ValidationErrorPtr ve)) ->
      findIn (PtrTo (StructAt rt ptrt fields)) key values =
      Returns (PtrTo (StructAt rt ptrt fields1), Some (ValidationErrorPtr ve))) /\
  (forall val key vals val1 ve verrs rest,
      findIn val key vals = Returns (val1, Some (ValidationErrorPtr ve)) ->
      walkFrom val verrs ((key, vals) :: rest) = walkFrom val1 (verrs ++ [ve]) rest) /\
  (forall t v ves t',
      Scans (PtrTo t) v ves (PtrTo t') ->
      Unmarshal v (Pointer t) =
      Returns (Pointer t', match ves with
                           | [] => None
                           | _ => Some (CompoundValidationError ves)
                           end)).
Proof.
  split; [|split].
  - intros rt ptrt fields key values f fields1 ve Hf Hv.
    rewrite (findIn_matched _ _ _ _ _ _ Hf), (assignMatched_invalid _ _ _ _ _ _ _ Hv).
    reflexivity.
  - intros val key vals val1 ve verrs rest Hf.
    now rewrite (walkFrom_step _ _ _ _ _ _ _ Hf).
  - intros t v ves t' HS. unfold Unmarshal.
    rewrite (walk_Scans _ _ _ _ HS). reflexivity.
Qed.


(** C10.  The loop of [walk] sorts the error of a key by its dynamic type
    alone: a pointer to a [ValidationError] is added to the list and the scan
    goes on; an error of any other type ends the scan and is returned.  So a
    setter that returns a pointer to a [ValidationError] does not halt the
    scan. *)
Theorem errors_classified_by_type :
  (forall val key vals val1 e verrs rest,
      findIn val key vals = Returns (val1, Some e) ->
      walkFrom val verrs ((key, vals) :: rest) =
      match e with
      | ValidationErrorPtr ve => walkFrom val1 (verrs ++ [ve]) rest
      | _ => Returns (val1, Some e)
      end) /\
  (forall rt ptrt fields key values f fields1 (m : Method) fields2 ve verrs rest,
      findByKey rt key = Some f ->
      validate ptrt f fields values = Returns (fields1, None) ->
      ptrt !! ("FormSet" ++ reflect.FName f) = Some m ->
      m fields1 values = Returns (fields2, Some (ValidationErrorPtr ve)) ->
      walkFrom (PtrTo (StructAt rt ptrt fields)) verrs ((key, values) :: rest) =
      walkFrom (PtrTo (StructAt rt ptrt fields2)) (verrs ++ [ve]) rest).
Proof.
  split.
  - intros val key vals val1 e verrs rest Hf.
    now rewrite (walkFrom_step _ _ _ _ _ _ _ Hf).
  - intros rt ptrt fields key values f fields1 m fields2 ve verrs rest Hf Hv Hm Hr.
    apply walkFrom_step with (e := Some (ValidationErrorPtr ve)).
    rewrite (findIn_matched _ _ _ _ _ _ Hf), (assignMatched_setter _ _ _ _ _ _ _ Hv Hm), Hr.
    reflexivity.
Qed.


(** A pointer to a map fares the same: the type assertion of [findIn] looks
    at the pointer, not at the map. *)
Lemma pointer_to_map_unusable v :
  Unmarshal v (Pointer MapAt) =
  Returns (Pointer MapAt, match v with [] => None | _ => Some cannotStore end).
Proof. destruct v as [|[key vals] rest]; reflexivity. Qed.

(** ** Coercion *)


(** The panic is not caught on the way up: a key with no value that resolves
    to a string field without hooks makes [Unmarshal] panic. *)
Lemma text_field_empty_values_panics :
  Unmarshal [("first_name", [])] (Pointer (NamePair.at_ "" "")) =
  Panics IndexOutOfRange.
Proof. vm_compute. reflexivity. Qed.

(** A string field that cannot be set makes [Set] panic. *)
Lemma text_field_unexported cur v0 rest :
  assignToStructField false (reflect.StringOf cur) (v0 :: rest) = Panics NotSettable.
Proof. reflexivity. Qed.


(** The numeric cases parse at the width of [int] and store through [SetInt]
    and [SetUint], which convert to the width of the field: an 8-bit field
    does not hold 1999 afterwards. *)
Lemma int8_field_wraps cur :
  assignToStructField true (reflect.IntOf reflect.Int8 cur) ["1999"] =
    Returns (reflect.IntOf reflect.Int8 (-49), None) /\
  assignToStructField true (reflect.UintOf reflect.Uint8 cur) ["1999"] =
    Returns (reflect.UintOf reflect.Uint8 207, None).
Proof. split; reflexivity. Qed.

(** One blank value is read as 0 too. *)
Lemma int_field_blank k cur :
  assignToStructField true (reflect.IntOf k cur) [""] = Returns (reflect.IntOf k 0, None).
Proof. destruct k; reflexivity. Qed.

(** The coercion of a numeric field reports a string that does not parse. *)
Lemma int_field_parse_error k cur val e :
  strconv.ParseInt (chosen val) 0 0 = (0, Some e) ->
  assignToStructField true (reflect.IntOf k cur) val =
  Returns (reflect.IntOf k cur, Some (NumErrorPtr e)).
Proof.
  intros H. unfold assignToStructField, assignToInt. simpl negb. cbv iota.
  rewrite H. reflexivity.
Qed.

(** Yet [assignToStruct] does not return what the coercion reports: with no
    setter, a key that passed validation never yields an error. *)
Lemma raw_assignment_error_dropped rt ptrt fields key values f fields1 val' e :
  findByKey rt key = Some f ->
  validate ptrt f fields values = Returns (fields1, None) ->
  ptrt !! ("FormSet" ++ reflect.FName f) = None ->
  findIn (PtrTo (StructAt rt ptrt fields)) key values = Returns (val', e) ->
  e = None.
Proof.
  intros Hf Hv Hm.
  rewrite (findIn_matched _ _ _ _ _ _ Hf), (assignMatched_raw _ _ _ _ _ _ Hv Hm).
  destruct (assignRaw rt f fields1 values) as [[fields' e']|p] eqn:E; simpl; [|discriminate].
  intros [= _ <-]. eapply assignRaw_no_error, E.
Qed.

(** C3.  The code at the input where it departs from the claim: the [int]
    field [Zip] of [FixtureAddress] has no setter, and the value [abc] does
    not parse.  The coercion reports the syntax error of [ParseInt], but
    [Unmarshal] returns nil, leaves the field as it was, and goes on to the
    next key. *)
Theorem parse_failure_not_returned :
  assignToStructField true (reflect.IntOf reflect.Int 0) ["abc"] =
    Returns (reflect.IntOf reflect.Int 0,
             Some (NumErrorPtr (strconv.mkNumError "ParseInt" "abc" strconv.ErrSyntax))) /\
  Unmarshal [("zip", ["abc"])] (Pointer (FixtureAddress.at_ FixtureAddress.zero)) =
    Returns (Pointer (FixtureAddress.at_ FixtureAddress.zero), None) /\
  Unmarshal [("zip", ["abc"]); ("street", ["1234 Long St."])]
      (Pointer (FixtureAddress.at_ FixtureAddress.zero)) =
    Returns (Pointer (FixtureAddress.at_
               [reflect.StringOf "1234 Long St."; reflect.StringOf "";
                reflect.StringOf ""; reflect.IntOf reflect.Int 0]), None).
Proof. repeat split; vm_compute; reflexivity. Qed.

(** ** Tags and keys *)

(** A key that is not empty never resolves to a field whose tag marks it as
    ignored. *)
Lemma ignored_field_not_matched f key :
  Ignore (parseTag (reflect.FTag f)) = true -> key <> "" ->
  String.eqb (Name (resolveTag f)) key = false.
Proof.
  intros Hi Hk. rewrite (resolveTag_ignore_name _ Hi).
  destruct (String.eqb_spec "" key); [now subst|reflexivity].
Qed.

(** C5.  The tag [-] parses to a descriptor with [Ignore] set and an empty
    name.  The code at the input where it departs from the claim: the name of
    an ignored field stays empty and is still compared with the key, so the
    empty key resolves to the field [Processed] of [ExampleForm], tagged [-],
    and [Unmarshal] sets it. *)
Theorem ignored_field_matched_by_empty_key :
  parseTag "-" = mkTag "" "" "" false true false /\
  findByKey ExampleForm.rt "" = Some (field "Processed" "-") /\
  Unmarshal [("", ["true"])] (Pointer (ExampleForm.at_ "" "" false)) =
    Returns (Pointer (ExampleForm.at_ "" "" true), None).
Proof. repeat split; vm_compute; reflexivity. Qed.

(** C8.  A field without a tag resolves to a descriptor named after the
    field.  Decoding the single key [first_name] with the value [Matt] into a
    struct with a string [FirstName] tagged [first_name] and a string
    [LastName] without a tag sets [FirstName] to [Matt], leaves [LastName]
    empty, and returns nil. *)
Theorem untagged_field_named_after_field :
  (forall name exported,
      resolveTag (reflect.mkStructField name "" exported) =
      mkTag name "" "" false false false) /\
  Tags (NamePair.at_ "" "") =
    [mkTag "first_name" "" "" false false false; mkTag "LastName" "" "" false false false] /\
  Unmarshal [("first_name", ["Matt"])] (Pointer (NamePair.at_ "" "")) =
    Returns (Pointer (NamePair.at_ "Matt" ""), None).
Proof.
  split; [|split].
  - intros name exported. unfold resolveTag. simpl.
    destruct name; reflexivity.
  - reflexivity.
  - vm_compute. reflexivity.
Qed.

(** C9.  [parseTag] is a total function.  The tag with a name, a prefix, a
    suffix and [omitempty] parses to the descriptor with these four set.  The
    segments after the first are matched one by one, whatever their place:
    [Omit] is set when [omitempty] is among them, [Prefix] and [Suffix] come
    from the last segment of their form, and the name and the two markers from
    the first segment alone.  So reordering the segments does not change the
    descriptor, as long as no two different segments set the same field (then
    the last one wins).  A segment that is not recognised leaves the
    descriptor as it is. *)
Theorem parseTag_segments :
  (forall str, exists t, parseTag str = t) /\
  parseTag "name,prefix=pre_,suffix=suf_,omitempty" =
    mkTag "name" "pre_" "suf_" true false false /\
  (forall n rest,
      Forall (fun q => hasByte "," q = false) (n :: rest) ->
      parseTag (strings.Join (n :: rest) ",") =
      mkTag (Name (parseHead n zeroTag)) (lastOf "prefix=" rest "") (lastOf "suffix=" rest "")
            (existsb (String.eqb "omitempty") rest)
            (Ignore (parseHead n zeroTag)) (Group (parseHead n zeroTag))) /\
  (forall n rest rest',
      Forall (fun q => hasByte "," q = false) (n :: rest) ->
      Permutation rest rest' -> agreeing rest ->
      parseTag (strings.Join (n :: rest) ",") = parseTag (strings.Join (n :: rest') ",")) /\
  (forall n l1 u l2,
      Forall (fun q => hasByte "," q = false) (n :: l1 ++ u :: l2) ->
      unrecognised u ->
      parseTag (strings.Join (n :: l1 ++ u :: l2) ",") =
      parseTag (strings.Join (n :: l1 ++ l2) ",")).
Proof.
  split; [|split; [|split; [|split]]].
  - intros str. now exists (parseTag str).
  - reflexivity.
  - intros n rest Hc.
    rewrite (parseTag_parts _ _ _ (Split_Join _ _ _ Hc)).
    destruct (fold_parseSegment_keeps rest (parseHead n zeroTag)) as (Hn & Hi & Hg).
    destruct (fold_parseSegment_fields rest (parseHead n zeroTag)) as (Ho & Hp & Hs).
    destruct (fold_left parseSegment rest (parseHead n zeroTag)) as [nm pre suf om ig gr].
    simpl in *. subst.
    unfold parseHead.
    destruct (String.eqb n "+"); [reflexivity|].
    destruct (String.eqb n "-"); reflexivity.
  - intros n rest rest' Hc HP Hag.
    assert (Hc' : Forall (fun q => hasByte "," q = false) (n :: rest')).
    { inversion Hc; subst. constructor; [assumption|].
      eapply Permutation_Forall; eassumption. }
    rewrite (parseTag_parts _ _ _ (Split_Join _ _ _ Hc)),
            (parseTag_parts _ _ _ (Split_Join _ _ _ Hc')).
    now apply fold_parseSegment_perm.
  - intros n l1 u l2 Hc Hu.
    assert (Hc' : Forall (fun q => hasByte "," q = false) (n :: l1 ++ l2)).
    { inversion Hc as [|? ? Hn Hl]; subst. constructor; [assumption|].
      apply Forall_app in Hl as [H1 H2]. apply Forall_app. split; [assumption|].
      now inversion H2. }
    rewrite (parseTag_parts _ _ _ (Split_Join _ _ _ Hc)),
            (parseTag_parts _ _ _ (Split_Join _ _ _ Hc')).
    rewrite !fold_left_app. simpl. now rewrite parseSegment_unrecognised.
Qed.

(** ** Orders of iteration *)

(** Every map can be ranged over, and only the empty map in no step. *)
Lemma ranges_exists (v : gmap string (list string)) : exists items, ranges v items.
Proof. exists (map_to_list v). unfold ranges. reflexivity. Qed.

Lemma ranges_nil (v : gmap string (list string)) : ranges v [] <-> v = ∅.
Proof.
  unfold ranges. split.
  - intros H. apply Permutation_nil in H. now apply map_to_list_empty_iff.
  - intros ->. now rewrite map_to_list_empty.
Qed.

(** A destination that cannot store values, on maps: the error is returned
    for every map that is not empty, in whatever order it is ranged over. *)
Lemma nonempty_map_unusable (v : gmap string (list string)) items :
  ranges v items -> v <> ∅ ->
  Unmarshal items (Pointer OtherAt) = Returns (Pointer OtherAt, Some cannotStore).
Proof.
  intros Hr Hv. destruct items as [|[key vals] rest]; [|reflexivity].
  now apply ranges_nil in Hr.
Qed.

(** * Further properties *)

(** ** Coercion of one field *)

(** X1.  A numeric field the coercion reports an error for keeps its
    contents: a string that does not parse, a value out of the range of the
    parser, or a field that cannot be set, leave the field as it was. *)
Theorem numeric_failure_keeps_value :
  forall canSet rv val rv' e,
    numeric rv = true ->
    assignToStructField canSet rv val = Returns (rv', Some e) -> rv' = rv.
Proof.
  intros canSet rv val rv' e Hn H.
  destruct rv as [s|k i|k u|k x|b|l| |]; try discriminate Hn;
    cbn [assignToStructField] in H.
  - unfold assignToInt in H. destruct canSet; cbn [negb] in H; [|now inversion H].
    destruct (strconv.ParseInt (chosen val) 0 0) as [ival [err|]]; now inversion H.
  - unfold assignToUint in H. destruct canSet; cbn [negb] in H; [|now inversion H].
    destruct (strconv.ParseUint (chosen val) 0 0) as [ival [err|]]; now inversion H.
  - unfold assignToFloat in H. destruct canSet; cbn [negb] in H; [|now inversion H].
    destruct (ParseFloat (chosen val)) as [ival [err|]]; now inversion H.
Qed.

(** X2.  A bool field does not keep its contents in that case: the value is
    stored before the error is looked at, so whenever the coercion of a
    settable bool field reports an error, the field is false afterwards. *)
Theorem bool_failure_resets :
  forall cur val rv' e,
    assignToStructField true (reflect.BoolOf cur) val = Returns (rv', Some e) ->
    rv' = reflect.BoolOf false.
Proof.
  intros cur val rv' e H. cbn [assignToStructField] in H.
  destruct val as [|v0 rest]; [discriminate|].
  unfold ParseBool in H.
  destruct (existsb (String.eqb v0) ["1"; "t"; "T"; "true"; "TRUE"; "True"]);
    [discriminate H|].
  destruct (existsb (String.eqb v0) ["0"; "f"; "F"; "false"; "FALSE"; "False"]);
    [discriminate H|].
  now inversion H.
Qed.


(** X4.  For a numeric field, no value and one blank value are read as the
    string 0: the three inputs have the same outcome, for every kind of
    number and whether or not the field can be set.  A blank value followed
    by another is not blank: the empty string is what gets parsed. *)
Theorem blank_is_zero :
  forall canSet rv,
    numeric rv = true ->
    assignToStructField canSet rv [] = assignToStructField canSet rv ["0"] /\
    assignToStructField canSet rv [""] = assignToStructField canSet rv ["0"] /\
    forall v1 rest, chosen ("" :: v1 :: rest) = "".
Proof.
  intros canSet rv Hn.
  destruct rv as [s|k i|k u|k x|b|l| |]; try discriminate Hn; repeat split.
Qed.

(** ** Keys and destinations *)

(** X5.  Keys that resolve to no field are skipped: an input made of such
    keys only leaves the struct as it was, calls no hook, and [Unmarshal]
    returns nil. *)
Theorem unknown_keys_skipped :
  forall rt ptrt fields v,
    Forall (fun entry => findByKey rt entry.1 = None) v ->
    Unmarshal v (Pointer (StructAt rt ptrt fields)) =
    Returns (Pointer (StructAt rt ptrt fields), None).
Proof.
  intros rt ptrt fields v Hv. unfold Unmarshal, walk.
  induction Hv as [|[key vals] v Hk _ IH]; [reflexivity|].
  cbn [fst] in Hk.
  rewrite (walkFrom_step _ _ _ _ _ _ _ (findIn_skipped rt ptrt fields key vals Hk)).
  exact IH.
Qed.

(** X6.  Only a non-nil pointer to a struct can be decoded into.  What is
    no pointer, or a nil pointer, is refused before the input is looked at.
    Every other destination, pointers to maps among them, is refused at the
    first entry: for an input that is not empty [Unmarshal] returns an error.
    In both cases the destination is as it was. *)
Theorem only_structs_decode :
  (forall o v,
      o = NotPointer \/ o = NilPointer ->
      Unmarshal v o =
      Returns (o, Some (errorString "unmarshal requires a pointer to a receiver"))) /\
  (forall o v,
      isStructPointer o = false -> v <> [] ->
      exists msg, Unmarshal v o = Returns (o, Some (errorString msg))).
Proof.
  split.
  - intros o v [-> | ->]; reflexivity.
  - intros o v Ho Hv. destruct v as [|[key vals] rest]; [contradiction|].
    destruct o as [| |[rt ptrt fields| |]]; try discriminate Ho; eexists; reflexivity.
Qed.

(** X7.  The first match wins: when several fields resolve to the same key,
    the key is handled by the first of them in declaration order, and the
    validators, setters and contents of the later ones play no part. *)
Theorem first_match_wins :
  forall pre f post key,
    Forall (fun g => Name (resolveTag g) <> key) pre ->
    Name (resolveTag f) = key ->
    findByKey (pre ++ f :: post) key = Some f /\
    forall ptrt fields values,
      findIn (PtrTo (StructAt (pre ++ f :: post) ptrt fields)) key values =
      '(fields', err) ← assignMatched (pre ++ f :: post) ptrt f fields values;
      Returns (PtrTo (StructAt (pre ++ f :: post) ptrt fields'), err).
Proof.
  intros pre f post key Hpre Hf.
  assert (H : findByKey (pre ++ f :: post) key = Some f).
  { induction Hpre as [|g pre Hg _ IH]; cbn [app findByKey].
    - rewrite Hf, String.eqb_refl. reflexivity.
    - destruct (String.eqb_spec (Name (resolveTag g)) key); [contradiction|exact IH]. }
  split; [exact H|]. intros ptrt fields values. now apply findIn_matched.
Qed.

(** X8.  A setter has the field to itself: when the field a key resolves to
    has a setter (and its validator, if any, returned nil), the outcome of
    the key is the outcome of the setter, on the struct as the validator left
    it.  The engine stores nothing itself, so a setter that returns nil
    without setting the field leaves it unset. *)
Theorem setter_has_the_field :
  forall rt ptrt fields key values f fields1 (m : Method),
    findByKey rt key = Some f ->
    validate ptrt f fields values = Returns (fields1, None) ->
    ptrt !! ("FormSet" ++ reflect.FName f) = Some m ->
    findIn (PtrTo (StructAt rt ptrt fields)) key values =
    '(fields2, err) ← m fields1 values;
    Returns (PtrTo (StructAt rt ptrt fields2), err).
Proof.
  intros rt ptrt fields key values f fields1 m Hf Hv Hm.
  now rewrite (findIn_matched _ _ _ _ _ _ Hf), (assignMatched_setter _ _ _ _ _ _ _ Hv Hm).
Qed.

(** X9.  A panic is not recovered: when the scan has gone through some
    entries and a hook or a coercion panics at the next one, [Unmarshal]
    panics, whatever entries remain. *)
Theorem panic_propagates :
  forall t pre ves val1 key vals p rest,
    Scans (PtrTo t) pre ves val1 ->
    findIn val1 key vals = Panics p ->
    Unmarshal (pre ++ (key, vals) :: rest) (Pointer t) = Panics p.
Proof.
  intros t pre ves val1 key vals p rest HS Hp. unfold Unmarshal, walk.
  rewrite (walkFrom_Scans _ _ _ _ HS). cbn [walkFrom]. rewrite Hp. reflexivity.
Qed.

(** ** Structs without hooks *)

(** For a struct without methods, [findIn] returns no error. *)
Lemma findIn_hookfree_no_error rt fields key vals val' e :
  findIn (PtrTo (StructAt rt ∅ fields)) key vals = Returns (val', e) ->
  e = None /\ exists fields', val' = PtrTo (StructAt rt ∅ fields').
Proof.
  destruct (findByKey rt key) as [f|] eqn:Hf.
  - rewrite (findIn_matched _ _ _ _ _ _ Hf).
    rewrite (assignMatched_raw rt ∅ f fields vals fields);
      [|unfold validate; now rewrite lookup_empty|apply lookup_empty].
    destruct (assignRaw rt f fields vals) as [[fields' e']|p] eqn:E; [|discriminate].
    intros [= <- <-]. split; [eapply assignRaw_no_error, E|now exists fields'].
  - rewrite (findIn_skipped _ _ _ _ _ Hf). intros [= <- <-].
    split; [reflexivity|now exists fields].
Qed.

(** The same for the whole loop of [walk]. *)
Lemma walk_hookfree_no_error rt v :
  forall fields val' e,
    walkFrom (PtrTo (StructAt rt ∅ fields)) [] v = Returns (val', e) ->
    e = None /\ exists fields', val' = PtrTo (StructAt rt ∅ fields').
Proof.
  induction v as [|[key vals] v IH]; intros fields val' e.
  - cbn. intros [= <- <-]. split; [reflexivity|now exists fields].
  - cbn [walkFrom].
    destruct (findIn (PtrTo (StructAt rt ∅ fields)) key vals) as [[val1 e1]|p] eqn:Hf;
      [|discriminate].
    destruct (findIn_hookfree_no_error _ _ _ _ _ _ Hf) as (-> & fields1 & ->).
    run_bind. apply IH.
Qed.

(** X10.  Without hooks no input yields an error: whenever [Unmarshal]
    returns for a struct that has neither validators nor setters, it returns
    nil, and the destination is still a struct of the same type. *)
Theorem hookfree_never_errors :
  forall rt fields v o' e,
    Unmarshal v (Pointer (StructAt rt ∅ fields)) = Returns (o', e) ->
    e = None /\ exists fields', o' = Pointer (StructAt rt ∅ fields').
Proof.
  intros rt fields v o' e. unfold Unmarshal, walk.
  destruct (walkFrom (PtrTo (StructAt rt ∅ fields)) [] v) as [[val1 e1]|p] eqn:Hw;
    [|discriminate].
  destruct (walk_hookfree_no_error _ _ _ _ _ Hw) as (-> & fields' & ->).
  run_bind. intros [= <- <-]. split; [reflexivity|now exists fields'].
Qed.

(** The field a key resolves to is a field of the struct, and its resolved
    name is the key. *)
Lemma findByKey_Some rt key f :
  findByKey rt key = Some f -> f ∈ rt /\ Name (resolveTag f) = key.
Proof.
  induction rt as [|g rt IH]; cbn [findByKey]; [discriminate|].
  destruct (String.eqb_spec (Name (resolveTag g)) key) as [Hg|Hg].
  - intros [= <-]. split; [left|exact Hg].
  - intros H. destruct (IH H) as [Hin Hn]. split; [now right|exact Hn].
Qed.

(** The coercion of a settable field from at least one value returns. *)
Lemma coerced_returns rv v0 rest :
  exists e, assignToStructField true rv (v0 :: rest) = Returns (coerced rv (v0 :: rest), e).
Proof.
  unfold coerced.
  destruct (assignToStructField true rv (v0 :: rest)) as [[rv' e]|p] eqn:E;
    [now exists e|].
  destruct rv as [s|k i|k u|k x|b|l| |]; cbn [assignToStructField] in E; try discriminate E.
  - destruct (assignToInt true k i (chosen (v0 :: rest))); discriminate E.
  - destruct (assignToUint true k u (chosen (v0 :: rest))); discriminate E.
  - destruct (assignToFloat true k x (chosen (v0 :: rest))); discriminate E.
  - destruct (ParseBool v0); discriminate E.
Qed.

Lemma coerced_kind rv val : kindOf (coerced rv val) = kindOf rv.
Proof.
  unfold coerced.
  destruct (assignToStructField true rv val) as [[rv' e]|p] eqn:E; [|reflexivity].
  destruct rv as [s|k i|k u|k x|b|l| |]; cbn [assignToStructField] in E.
  - destruct val; [discriminate|]. now inversion E.
  - destruct (assignToInt true k i (chosen val)). now inversion E.
  - destruct (assignToUint true k u (chosen val)). now inversion E.
  - destruct (assignToFloat true k x (chosen val)). now inversion E.
  - destruct val; [discriminate|]. destruct (ParseBool s). now inversion E.
  - now inversion E.
  - now inversion E.
  - now inversion E.
Qed.

(** Coercing twice from the same values is coercing once. *)
Lemma coerced_idem rv val : coerced (coerced rv val) val = coerced rv val.
Proof.
  unfold coerced.
  destruct rv as [s|k i|k u|k x|b|l| |]; cbn [assignToStructField].
  - destruct val; reflexivity.
  - unfold assignToInt. cbn [negb].
    destruct (strconv.ParseInt (chosen val) 0 0) as [ival [err|]] eqn:E;
      cbn [assignToStructField]; unfold assignToInt; cbn [negb]; now rewrite E.
  - unfold assignToUint. cbn [negb].
    destruct (strconv.ParseUint (chosen val) 0 0) as [ival [err|]] eqn:E;
      cbn [assignToStructField]; unfold assignToUint; cbn [negb]; now rewrite E.
  - unfold assignToFloat. cbn [negb].
    destruct (ParseFloat (chosen val)) as [ival [err|]] eqn:E;
      cbn [assignToStructField]; unfold assignToFloat; cbn [negb]; now rewrite E.
  - destruct val as [|v0 rest]; [reflexivity|].
    destruct (ParseBool v0) as [b' err] eqn:E. cbn [assignToStructField]. now rewrite E.
  - reflexivity.
  - reflexivity.
  - reflexivity.
Qed.

(** For a struct without hooks whose fields are exported, [findIn] makes the
    step [rawStep] when the key comes with at least one value. *)
Lemma findIn_rawStep rt fields key vals :
  Forall (fun f => reflect.Exported f = true) rt -> vals <> [] ->
  findIn (PtrTo (StructAt rt ∅ fields)) key vals =
  Returns (PtrTo (StructAt rt ∅ (rawStep rt fields (key, vals))), None).
Proof.
  intros Hex Hv. unfold rawStep, target. cbn [fst snd].
  destruct (findByKey rt key) as [f|] eqn:Hf.
  - rewrite (findIn_matched _ _ _ _ _ _ Hf).
    rewrite (assignMatched_raw rt ∅ f fields vals fields);
      [|unfold validate; now rewrite lookup_empty|apply lookup_empty].
    unfold assignRaw.
    destruct (FieldByName rt (reflect.FName f)) as [i|]; [|reflexivity].
    destruct (fields !! i) as [rv|]; [|reflexivity].
    destruct (findByKey_Some _ _ _ Hf) as [Hin _].
    rewrite (proj1 (Forall_forall _ _) Hex f Hin).
    destruct vals as [|v0 rest]; [contradiction|].
    destruct (coerced_returns rv v0 rest) as [e ->]. reflexivity.
  - now rewrite (findIn_skipped _ _ _ _ _ Hf).
Qed.

Lemma walkFrom_decoded rt v :
  Forall (fun f => reflect.Exported f = true) rt ->
  Forall (fun entry : string * list string => entry.2 <> []) v ->
  forall fields,
    walkFrom (PtrTo (StructAt rt ∅ fields)) [] v =
    Returns (PtrTo (StructAt rt ∅ (decoded rt v fields)), None).
Proof.
  intros Hex Hv. induction Hv as [|[key vals] v Hk _ IH]; intros fields; [reflexivity|].
  cbn [snd] in Hk.
  rewrite (walkFrom_step _ _ _ _ _ _ _ (findIn_rawStep rt fields key vals Hex Hk)).
  apply IH.
Qed.

Lemma Unmarshal_decoded rt v fields :
  Forall (fun f => reflect.Exported f = true) rt ->
  Forall (fun entry : string * list string => entry.2 <> []) v ->
  Unmarshal v (Pointer (StructAt rt ∅ fields)) =
  Returns (Pointer (StructAt rt ∅ (decoded rt v fields)), None).
Proof.
  intros Hex Hv. unfold Unmarshal, walk. now rewrite (walkFrom_decoded rt v Hex Hv).
Qed.

(** One step keeps the number of fields and the kind of each. *)
Lemma rawStep_shape rt fields entry :
  kindOf <$> rawStep rt fields entry = kindOf <$> fields.
Proof.
  unfold rawStep. destruct (target rt entry.1) as [i|]; [|reflexivity].
  destruct (fields !! i) as [rv|] eqn:Hi; [|reflexivity].
  rewrite list_fmap_insert, coerced_kind.
  apply list_insert_id. now rewrite list_lookup_fmap, Hi.
Qed.

Lemma decoded_shape rt items fields :
  kindOf <$> decoded rt items fields = kindOf <$> fields.
Proof.
  unfold decoded. revert fields.
  induction items as [|entry items IH]; intros fields; [reflexivity|].
  cbn [foldl]. now rewrite IH, rawStep_shape.
Qed.

(** X11.  A struct without hooks whose fields are all exported, and of
    predeclared types, decodes every input in which each key has at least one
    value: [Unmarshal] does not panic and returns nil, and the struct has as
    many fields as before, each of the kind it had. *)
Theorem hookfree_decodes :
  forall rt fields v,
    Forall (fun f => reflect.Exported f = true) rt ->
    Forall (fun entry : string * list string => entry.2 <> []) v ->
    exists fields',
      Unmarshal v (Pointer (StructAt rt ∅ fields)) =
        Returns (Pointer (StructAt rt ∅ fields'), None) /\
      kindOf <$> fields' = kindOf <$> fields.
Proof.
  intros rt fields v Hex Hv. exists (decoded rt v fields).
  split; [now apply Unmarshal_decoded|apply decoded_shape].
Qed.

(** Fields with distinct names are told apart by their names. *)
Lemma field_by_name_unique (rt : list reflect.StructField) f g :
  NoDup (reflect.FName <$> rt) -> f ∈ rt -> g ∈ rt ->
  reflect.FName f = reflect.FName g -> f = g.
Proof.
  induction rt as [|h rt IH]; intros Hnd Hf Hg Hn; [now apply elem_of_nil in Hf|].
  rewrite fmap_cons in Hnd. apply NoDup_cons in Hnd as [Hh Hnd].
  apply elem_of_cons in Hf as [->|Hf]; apply elem_of_cons in Hg as [->|Hg].
  - reflexivity.
  - exfalso. apply Hh. rewrite Hn. now apply list_elem_of_fmap_2.
  - exfalso. apply Hh. rewrite <- Hn. now apply list_elem_of_fmap_2.
  - now apply IH.
Qed.

(** Two keys that lead to the same field are the same key. *)
Lemma target_inj rt k1 k2 i :
  NoDup (reflect.FName <$> rt) ->
  target rt k1 = Some i -> target rt k2 = Some i -> k1 = k2.
Proof.
  intros Hnd. unfold target, FieldByName.
  destruct (findByKey rt k1) as [f1|] eqn:H1; [|discriminate].
  destruct (findByKey rt k2) as [f2|] eqn:H2; [|discriminate].
  destruct (list_find _ rt) as [[i1 g1]|] eqn:L1; [|discriminate].
  intros [= ->].
  destruct (list_find (fun f => reflect.FName f = reflect.FName f2) rt)
    as [[i2 g2]|] eqn:L2; [|discriminate].
  intros [= ->].
  apply list_find_Some in L1 as (Hg1 & Hn1 & _).
  apply list_find_Some in L2 as (Hg2 & Hn2 & _).
  rewrite Hg1 in Hg2. injection Hg2 as <-.
  destruct (findByKey_Some _ _ _ H1) as [Hin1 <-].
  destruct (findByKey_Some _ _ _ H2) as [Hin2 <-].
  f_equal. f_equal. apply (field_by_name_unique rt); [assumption..|congruence].
Qed.

(** A step leaves alone every field but the one its key leads to. *)
Lemma rawStep_frame rt fields entry j :
  target rt entry.1 <> Some j -> rawStep rt fields entry !! j = fields !! j.
Proof.
  intros Hj. unfold rawStep. destruct (target rt entry.1) as [i|]; [|reflexivity].
  destruct (fields !! i); [|reflexivity].
  apply list_lookup_insert_ne. congruence.
Qed.

Lemma decoded_frame rt items fields j :
  Forall (fun entry : string * list string => target rt entry.1 <> Some j) items ->
  decoded rt items fields !! j = fields !! j.
Proof.
  unfold decoded. intros H. revert fields.
  induction H as [|entry items He _ IH]; intros fields; [reflexivity|].
  cbn [foldl]. now rewrite IH, rawStep_frame.
Qed.

(** The steps of two different keys can be made in either order. *)
Lemma rawStep_commute rt fields e1 e2 :
  NoDup (reflect.FName <$> rt) -> e1.1 <> e2.1 ->
  rawStep rt (rawStep rt fields e1) e2 = rawStep rt (rawStep rt fields e2) e1.
Proof.
  intros Hnd Hne. unfold rawStep.
  destruct (target rt e1.1) as [i1|] eqn:T1; [|reflexivity].
  destruct (target rt e2.1) as [i2|] eqn:T2; [|reflexivity].
  assert (Hi : i1 <> i2).
  { intros ->. apply Hne. now apply (target_inj rt _ _ i2). }
  destruct (fields !! i1) as [rv1|] eqn:F1; destruct (fields !! i2) as [rv2|] eqn:F2;
    rewrite ?list_lookup_insert_ne, ?F1, ?F2 by congruence; try reflexivity.
  apply list_insert_insert_ne. congruence.
Qed.

Lemma rawStep_idem rt fields entry :
  rawStep rt (rawStep rt fields entry) entry = rawStep rt fields entry.
Proof.
  unfold rawStep. destruct (target rt entry.1) as [i|]; [|reflexivity].
  destruct (fields !! i) as [rv|] eqn:Hi; rewrite ?Hi; [|reflexivity].
  rewrite list_lookup_insert_eq by (eapply lookup_lt_Some, Hi).
  now rewrite list_insert_insert_eq, coerced_idem.
Qed.

(** The fields after a sequence of entries with distinct keys do not depend
    on the order of the entries. *)
Lemma decoded_perm rt items items' :
  NoDup (reflect.FName <$> rt) ->
  items ≡ₚ items' -> NoDup items.*1 ->
  forall fields, decoded rt items fields = decoded rt items' fields.
Proof.
  intros Hnd HP. unfold decoded.
  induction HP as [|e l l' HP IH|e1 e2 l|l l' l'' HP IH HP' IH']; intros Hk fields.
  - reflexivity.
  - cbn [foldl]. apply IH. rewrite fmap_cons in Hk. now apply NoDup_cons in Hk.
  - cbn [foldl]. f_equal. apply rawStep_commute; [assumption|].
    rewrite !fmap_cons in Hk. apply NoDup_cons in Hk as [Hk _].
    intros Heq. apply Hk. rewrite Heq. left.
  - rewrite IH by assumption. apply IH'. now rewrite <- HP.
Qed.

Lemma decoded_step_commute rt items entry :
  NoDup (reflect.FName <$> rt) ->
  Forall (fun e : string * list string => e.1 <> entry.1) items ->
  forall fields,
    decoded rt items (rawStep rt fields entry) = rawStep rt (decoded rt items fields) entry.
Proof.
  intros Hnd H. unfold decoded.
  induction H as [|e items He _ IH]; intros fields; [reflexivity|].
  cbn [foldl]. rewrite <- IH. f_equal. apply rawStep_commute; [assumption|congruence].
Qed.

Lemma decoded_idem rt items :
  NoDup (reflect.FName <$> rt) -> NoDup items.*1 ->
  forall fields, decoded rt items (decoded rt items fields) = decoded rt items fields.
Proof.
  intros Hnd. induction items as [|entry items IH]; intros Hk fields; [reflexivity|].
  rewrite fmap_cons in Hk. apply NoDup_cons in Hk as [Hnotin Hk].
  assert (Hne : Forall (fun e : string * list string => e.1 <> entry.1) items).
  { apply Forall_forall. intros e He Heq. apply Hnotin. rewrite <- Heq.
    now apply list_elem_of_fmap_2. }
  assert (E : forall s, decoded rt (entry :: items) s =
                        decoded rt items (rawStep rt s entry)) by reflexivity.
  rewrite !E, !(decoded_step_commute rt items entry Hnd Hne fields), rawStep_idem.
  rewrite (decoded_step_commute rt items entry Hnd Hne (decoded rt items fields)).
  now rewrite (IH Hk).
Qed.

(** X12.  The iteration order does not matter for a struct without hooks:
    when its fields are exported and have distinct names, and the keys of the
    input are distinct and each has at least one value, two sequences with
    the same entries give the same result of [Unmarshal]. *)
Theorem hookfree_order_independent :
  forall rt fields items items',
    Forall (fun f => reflect.Exported f = true) rt ->
    NoDup (reflect.FName <$> rt) ->
    Forall (fun entry : string * list string => entry.2 <> []) items ->
    NoDup items.*1 ->
    items ≡ₚ items' ->
    Unmarshal items (Pointer (StructAt rt ∅ fields)) =
    Unmarshal items' (Pointer (StructAt rt ∅ fields)).
Proof.
  intros rt fields items items' Hex Hnd Hv Hk HP.
  assert (Hv' : Forall (fun entry : string * list string => entry.2 <> []) items')
    by (eapply Permutation_Forall; eassumption).
  rewrite (Unmarshal_decoded rt items fields Hex Hv),
          (Unmarshal_decoded rt items' fields Hex Hv').
  now rewrite (decoded_perm rt items items' Hnd HP Hk).
Qed.

(** X13.  Decoding is idempotent for such a struct and input: decoding the
    same input again into the struct that was decoded into changes nothing. *)
Theorem hookfree_idempotent :
  forall rt fields items,
    Forall (fun f => reflect.Exported f = true) rt ->
    NoDup (reflect.FName <$> rt) ->
    Forall (fun entry : string * list string => entry.2 <> []) items ->
    NoDup items.*1 ->
    exists o',
      Unmarshal items (Pointer (StructAt rt ∅ fields)) = Returns (o', None) /\
      Unmarshal items o' = Returns (o', None).
Proof.
  intros rt fields items Hex Hnd Hv Hk.
  exists (Pointer (StructAt rt ∅ (decoded rt items fields))).
  rewrite !(Unmarshal_decoded rt items _ Hex Hv).
  now rewrite (decoded_idem rt items Hnd Hk).
Qed.

(** X14.  Each field a key leads to ends with what the coercion of its
    initial contents from the values of that key gives, whatever the order of
    the entries, for such a struct and input. *)
Theorem matched_field_holds_coercion :
  forall rt fields items key vals i rv,
    Forall (fun f => reflect.Exported f = true) rt ->
    NoDup (reflect.FName <$> rt) ->
    Forall (fun entry : string * list string => entry.2 <> []) items ->
    NoDup items.*1 ->
    (key, vals) ∈ items ->
    target rt key = Some i -> fields !! i = Some rv ->
    exists fields' rv' e,
      Unmarshal items (Pointer (StructAt rt ∅ fields)) =
        Returns (Pointer (StructAt rt ∅ fields'), None) /\
      assignToStructField true rv vals = Returns (rv', e) /\
      fields' !! i = Some rv'.
Proof.
  intros rt fields items key vals i rv Hex Hnd Hv Hk Hin Ht Hi.
  assert (Hvals : vals <> []).
  { exact (proj1 (Forall_forall _ _) Hv (key, vals) Hin). }
  destruct vals as [|v0 rest]; [contradiction|].
  destruct (coerced_returns rv v0 rest) as [e He].
  exists (decoded rt items fields), (coerced rv (v0 :: rest)), e.
  split; [now apply Unmarshal_decoded|]. split; [exact He|].
  apply elem_of_Permutation in Hin as [l HP].
  rewrite (decoded_perm rt items _ Hnd HP Hk).
  change (decoded rt ((key, v0 :: rest) :: l) fields)
    with (decoded rt l (rawStep rt fields (key, v0 :: rest))).
  assert (Hk' : NoDup ((key, v0 :: rest) :: l).*1) by now rewrite <- HP.
  rewrite fmap_cons in Hk'. apply NoDup_cons in Hk' as [Hnotin _].
  rewrite decoded_frame.
  - unfold rawStep. cbn [fst snd]. rewrite Ht, Hi.
    apply list_lookup_insert_eq. eapply lookup_lt_Some, Hi.
  - apply Forall_forall. intros entry Hentry Ht'.
    apply Hnotin. rewrite (target_inj rt key entry.1 i Hnd Ht Ht'). cbn [fst].
    now apply list_elem_of_fmap_2.
Qed.

(** For a struct without hooks, a key changes at most the field it leads to. *)
Lemma findIn_hookfree_frame rt fields key vals fields1 e j :
  findIn (PtrTo (StructAt rt ∅ fields)) key vals =
    Returns (PtrTo (StructAt rt ∅ fields1), e) ->
  target rt key <> Some j -> fields1 !! j = fields !! j.
Proof.
  unfold target. destruct (findByKey rt key) as [f|] eqn:Hf.
  - rewrite (findIn_matched _ _ _ _ _ _ Hf).
    rewrite (assignMatched_raw rt ∅ f fields vals fields);
      [|unfold validate; now rewrite lookup_empty|apply lookup_empty].
    unfold assignRaw.
    destruct (FieldByName rt (reflect.FName f)) as [i|]; [|now intros [= <- _]].
    destruct (fields !! i) as [rv|]; [|now intros [= <- _]].
    destruct (assignToStructField (reflect.Exported f) rv vals) as [[rv' e']|p];
      [|discriminate].
    run_bind. intros [= <- _] Hj. apply list_lookup_insert_ne. congruence.
  - rewrite (findIn_skipped _ _ _ _ _ Hf). now intros [= <- _].
Qed.

(** X15.  Fields without a key keep their contents: when [Unmarshal]
    returns for a struct without hooks, every field that no key of the input
    leads to holds what it held before. *)
Theorem unmatched_fields_untouched :
  forall rt fields v fields' e j,
    Unmarshal v (Pointer (StructAt rt ∅ fields)) =
      Returns (Pointer (StructAt rt ∅ fields'), e) ->
    Forall (fun entry : string * list string => target rt entry.1 <> Some j) v ->
    fields' !! j = fields !! j.
Proof.
  intros rt fields v fields' e j. unfold Unmarshal, walk.
  destruct (walkFrom (PtrTo (StructAt rt ∅ fields)) [] v) as [[val1 e1]|p] eqn:Hw;
    [|discriminate].
  destruct (walk_hookfree_no_error _ _ _ _ _ Hw) as (-> & fields1 & ->).
  run_bind. intros [= <- _] Hv. clear e.
  revert fields Hw. induction Hv as [|[key vals] v Hk _ IH]; intros fields Hw.
  - cbn in Hw. now injection Hw as <-.
  - cbn [walkFrom] in Hw. cbn [fst] in Hk.
    destruct (findIn (PtrTo (StructAt rt ∅ fields)) key vals) as [[val2 e2]|p] eqn:Hf;
      [|discriminate].
    destruct (findIn_hookfree_no_error _ _ _ _ _ _ Hf) as (-> & fields2 & ->).
    revert Hw. run_bind. intros Hw.
    rewrite (IH _ Hw). eapply findIn_hookfree_frame; eassumption.
Qed.

(** X16.  An unexported field a key leads to is not decoded into, in one of
    two ways.  A numeric field, or a field of an unsupported kind, is left as
    it is and the key is passed over in silence; a string, bool or slice
    field makes [Unmarshal] panic, reflect refusing the access. *)
Theorem unexported_field :
  forall rt fields key vals f i rv rest,
    findByKey rt key = Some f -> reflect.Exported f = false ->
    FieldByName rt (reflect.FName f) = Some i -> fields !! i = Some rv ->
    vals <> [] ->
    Unmarshal ((key, vals) :: rest) (Pointer (StructAt rt ∅ fields)) =
    if numeric rv || unsupported rv
    then Unmarshal rest (Pointer (StructAt rt ∅ fields))
    else Panics NotSettable.
Proof.
  intros rt fields key vals f i rv rest Hf Hex Hi Hrv Hvals.
  assert (H : findIn (PtrTo (StructAt rt ∅ fields)) key vals =
              if numeric rv || unsupported rv
              then Returns (PtrTo (StructAt rt ∅ fields), None)
              else Panics NotSettable).
  { rewrite (findIn_matched _ _ _ _ _ _ Hf).
    rewrite (assignMatched_raw rt ∅ f fields vals fields);
      [|unfold validate; now rewrite lookup_empty|apply lookup_empty].
    unfold assignRaw. rewrite Hi, Hrv, Hex.
    destruct vals as [|v0 vals]; [contradiction|].
    destruct rv as [s|k x|k x|k x|b|l| |]; cbn;
      rewrite ?(list_insert_id _ _ _ Hrv); try reflexivity.
    destruct (ParseBool v0). reflexivity. }
  unfold Unmarshal, walk. cbn [walkFrom]. rewrite H.
  destruct (numeric rv || unsupported rv); reflexivity.
Qed.

(** ** Maps *)

Lemma assignToMap_mapStep m key vals :
  assignToMap m key vals = (mapStep m (key, vals), None).
Proof. destruct vals as [|v0 [|v1 vals]]; reflexivity. Qed.

Lemma walkFrom_map items :
  forall m verrs,
    walkFrom (MapValue m) verrs items =
    Returns (MapValue (foldl mapStep m items),
             if (0 <? length verrs)%nat then Some (CompoundValidationError verrs) else None).
Proof.
  induction items as [|[key vals] items IH]; intros m verrs; [reflexivity|].
  cbn [walkFrom findIn foldl]. rewrite assignToMap_mapStep. run_bind. apply IH.
Qed.

Lemma foldl_mapStep items :
  NoDup items.*1 ->
  forall m, foldl mapStep m items = omap stored (list_to_map items) ∪ m.
Proof.
  induction items as [|[key vals] items IH]; intros Hnd m.
  - cbn. rewrite omap_empty. now rewrite (left_id_L ∅ (∪)).
  - rewrite fmap_cons in Hnd. apply NoDup_cons in Hnd as [Hk Hnd].
    cbn [foldl]. rewrite (IH Hnd). cbn [list_to_map foldr fst snd].
    assert (Hnone : (list_to_map items : gmap string (list string)) !! key = None)
      by now apply not_elem_of_list_to_map_1.
    apply map_eq. intros j.
    rewrite !lookup_union, !lookup_omap. unfold mapStep. cbn [fst snd].
    destruct (decide (key = j)) as [<-|Hj].
    + rewrite lookup_insert_eq, Hnone. cbn.
      destruct (stored vals) as [x|]; [|reflexivity].
      rewrite lookup_insert_eq. now destruct (m !! key).
    + rewrite lookup_insert_ne by assumption.
      destruct (stored vals) as [x|]; [now rewrite lookup_insert_ne|reflexivity].
Qed.

(** X17.  Walking the input into a [map[string]interface{}] that is not nil
    stores every key that has a value, a single value as a string and several
    as the list of them, over what the map held for that key; keys without a
    value and keys that are not in the input keep what the map held.  The
    result does not depend on the iteration order, and the error is nil. *)
Theorem walk_into_map :
  forall (v : gmap string (list string)) items m,
    ranges v items ->
    walk (MapValue m) items = Returns (MapValue (omap stored v ∪ m), None).
Proof.
  intros v items m Hr. unfold ranges in Hr. unfold walk.
  rewrite walkFrom_map. cbn.
  assert (Hnd : NoDup items.*1).
  { rewrite Hr. apply NoDup_fst_map_to_list. }
  rewrite (foldl_mapStep items Hnd).
  rewrite (list_to_map_proper items (map_to_list v) Hnd Hr), list_to_map_to_list.
  reflexivity.
Qed.

(** ** Tags of a struct *)



(** X19.  The keys [Unmarshal] resolves to a field of a struct are exactly
    the names of the descriptors [Tags] returns for it. *)
Theorem keys_are_tag_names :
  forall rt ptrt fields key,
    is_Some (findByKey rt key) <-> key ∈ Name <$> Tags (StructAt rt ptrt fields).
Proof.
  intros rt ptrt fields key. cbn [Tags].
  change (map resolveTag rt) with (resolveTag <$> rt).
  induction rt as [|f rt IH]; cbn [findByKey].
  - split; [intros [x Hx]; discriminate|intros H; now apply elem_of_nil in H].
  - rewrite !fmap_cons, elem_of_cons.
    destruct (String.eqb_spec (Name (resolveTag f)) key) as [Hk|Hk].
    + split; [intros _; now left|intros _; now eexists].
    + rewrite IH. split; [now right|]. intros [Heq|H]; [congruence|exact H].
Qed.

(** X20.  The two markers of a tag exclude each other and the name: a
    descriptor [parseTag] returns is never both ignored and a group, and when
    it is either, its name is empty. *)
Theorem parseTag_markers_exclusive :
  forall str,
    (Ignore (parseTag str) = true ->
     Group (parseTag str) = false /\ Name (parseTag str) = "") /\
    (Group (parseTag str) = true ->
     Ignore (parseTag str) = false /\ Name (parseTag str) = "").
Proof.
  intros str. destruct (strings.Split str ",") as [|n rest] eqn:E.
  - now apply Split_not_nil in E.
  - rewrite (parseTag_parts _ _ _ E).
    destruct (fold_parseSegment_keeps rest (parseHead n zeroTag)) as (-> & -> & ->).
    unfold parseHead.
    destruct (String.eqb n "+"); [cbn; split; [discriminate|easy]|].
    destruct (String.eqb n "-"); cbn; split; easy.
Qed.

(** ** Messages *)

Lemma foldl_append_messages errs :
  forall init,
    foldl (fun msg e => msg ++ [ValidationError_Error e])%list init errs =
    (init ++ (Message <$> errs))%list.
Proof.
  induction errs as [|e errs IH]; intros init; cbn [foldl fmap list_fmap].
  - now rewrite app_nil_r.
  - rewrite IH. now rewrite <- app_assoc.
Qed.

Lemma string_app_assoc (a b c : string) : (a ++ b) ++ c = a ++ b ++ c.
Proof.
  induction a as [|x a IH]; [reflexivity|].
  change (String x ((a ++ b) ++ c) = String x (a ++ b ++ c)). now rewrite IH.
Qed.

Lemma JoinWith_padded sep n l :
  l <> [] ->
  JoinWith (replicate n "" ++ l)%list sep = Repeat sep n ++ JoinWith l sep.
Proof.
  intros Hl. induction n as [|n IH]; [reflexivity|].
  cbn [replicate app Repeat].
  destruct (replicate n "" ++ l)%list as [|p ps] eqn:E.
  - destruct n; cbn in E; [contradiction|discriminate].
  - cbn [JoinWith]. cbn [JoinWith] in IH. rewrite IH.
    now rewrite string_app_assoc.
Qed.

(** X21.  The message of a compound error is its prefix followed by the
    messages of its errors, separated by a semicolon and a space.  In the
    earlier copy of the file the list starts with as many empty entries as
    there are errors, so the messages come after that many separators. *)
Theorem compound_error_message :
  forall errs,
    CompoundValidationError_Error errs =
      "validation errors occurred: " ++ JoinWith (Message <$> errs) "; " /\
    CompoundValidationError_Error_earlier errs =
      "multiple validation errors occurred: " ++
      Repeat "; " (length errs) ++ JoinWith (Message <$> errs) "; ".
Proof.
  intros errs. unfold CompoundValidationError_Error, CompoundValidationError_Error_earlier.
  rewrite !foldl_append_messages. split; [reflexivity|].
  f_equal. destruct errs as [|e errs]; [reflexivity|].
  apply JoinWith_padded. discriminate.
Qed.

(** ** The error returned *)

Lemma walkFrom_error_kind v :
  forall val verrs val' e,
    walkFrom val verrs v = Returns (val', Some e) -> asValidationError e = None.
Proof.
  induction v as [|[key vals] v IH]; intros val verrs val' e.
  - cbn [walkFrom]. destruct (0 <? length verrs)%nat; [|discriminate].
    now intros [= _ <-].
  - cbn [walkFrom].
    destruct (findIn val key vals) as [[val1 [e1|]]|p]; run_bind; [| |discriminate].
    + destruct (asValidationError e1) as [ve|] eqn:He.
      * apply IH.
      * now intros [= _ <-].
    + apply IH.
Qed.

(** X22.  [Unmarshal] never returns a validation error on its own: the
    dynamic type of a non-nil error it returns is not a pointer to a
    [ValidationError].  The validation errors of the hooks reach the caller
    inside a compound error only. *)
Theorem no_bare_validation_error :
  forall v o o' e,
    Unmarshal v o = Returns (o', Some e) -> asValidationError e = None.
Proof.
  intros v o o' e. unfold Unmarshal, walk.
  destruct o as [| |t]; try (now intros [= _ <-]).
  destruct (walkFrom (PtrTo t) [] v) as [[val1 [e1|]]|p] eqn:Hw; run_bind;
    [|discriminate..].
  intros [= _ <-]. eapply walkFrom_error_kind, Hw.
Qed.

End Decoder.

(** * Instances

    The theorems at concrete inputs, and the inputs at which two claims fail
    as they were stated. *)

(** [agreeing], for the three segments of the tag of the test. *)
Lemma agreeing_christmas_tree : agreeing ["prefix=pre_"; "suffix=suf_"; "omitempty"].
Proof.
  intros p q Hp Hq. simpl in Hp, Hq.
  destruct Hp as [<-|[<-|[<-|[]]]]; destruct Hq as [<-|[<-|[<-|[]]]];
    split; intros H1 H2; first [reflexivity | discriminate H1 | discriminate H2].
Qed.

(** C9 at a tag with four segments: its three last segments in another
    order, and a segment that is not recognised among them. *)
Lemma parseTag_segments_witness :
  parseTag "name,prefix=pre_,suffix=suf_,omitempty" =
    parseTag "name,omitempty,prefix=pre_,suffix=suf_" /\
  parseTag "name,prefix=pre_,required,omitempty" = parseTag "name,prefix=pre_,omitempty".
Proof.
  destruct parseTag_segments as (_ & _ & _ & Hperm & Hunrec). split.
  - apply (Hperm "name" ["prefix=pre_"; "suffix=suf_"; "omitempty"]
                        ["omitempty"; "prefix=pre_"; "suffix=suf_"]).
    + repeat constructor.
    + apply Permutation_sym, (Permutation_cons_append ["prefix=pre_"; "suffix=suf_"]).
    + exact agreeing_christmas_tree.
  - apply (Hunrec "name" ["prefix=pre_"] "required" ["omitempty"]).
    + repeat constructor.
    + split; [discriminate|split; reflexivity].
Defined.

(** The scan of the test of validators, in one of its orders: the street and
    the state are refused, the city and the zip code are stored. *)
Lemma Scans_invalid_address :
  Scans noFloat sameBits
    (PtrTo (FixtureAddress.at_ FixtureAddress.zero))
    [("street", ["FAIL"]); ("city", ["Glenview"]); ("state", [""]); ("zip", ["60626"])]
    [mkValidationError "street" "street cannot be FAIL";
     mkValidationError "state" "state is required"]
    (PtrTo (FixtureAddress.at_
              [reflect.StringOf ""; reflect.StringOf "glenview"; reflect.StringOf "";
               reflect.IntOf reflect.Int 60626])).
Proof.
  eapply Scans_invalid; [vm_compute; reflexivity|].
  eapply Scans_assigned; [vm_compute; reflexivity|].
  eapply Scans_invalid; [vm_compute; reflexivity|].
  eapply Scans_assigned; [vm_compute; reflexivity|].
  apply Scans_done.
Defined.

(** C1 at the test of validators: two validation errors come back together,
    neither [Street] nor [State] is assigned, and the other two fields are. *)
Lemma validation_failures_collected_witness :
  Unmarshal noFloat sameBits
    [("street", ["FAIL"]); ("city", ["Glenview"]); ("state", [""]); ("zip", ["60626"])]
    (Pointer (FixtureAddress.at_ FixtureAddress.zero)) =
  Returns (Pointer (FixtureAddress.at_
                      [reflect.StringOf ""; reflect.StringOf "glenview";
                       reflect.StringOf ""; reflect.IntOf reflect.Int 60626]),
           Some (CompoundValidationError
                   [mkValidationError "street" "street cannot be FAIL";
                    mkValidationError "state" "state is required"])).
Proof.
  destruct (validation_failures_collected noFloat sameBits) as (_ & _ & H).
  exact (H _ _ _ _ Scans_invalid_address).
Defined.



(** C10 at the same input: the error of the setter is sorted by its type, and
    the scan goes on with the key [age]. *)
Lemma errors_classified_by_type_witness :
  walkFrom noFloat sameBits (PtrTo (Signup.at_ "" 0)) [] [("email", [""]); ("age", ["7"])] =
  walkFrom noFloat sameBits (PtrTo (Signup.at_ "" 0))
    ([] ++ [Invalid "email" "email is required"]) [("age", ["7"])].
Proof.
  destruct (errors_classified_by_type noFloat sameBits) as (_ & H).
  apply (H Signup.rt Signup.ptrt _ "email" [""] (field "Email" "email")
           [reflect.StringOf ""; reflect.IntOf reflect.Int 0] Signup.FormSetEmail).
  - reflexivity.
  - vm_compute; reflexivity.
  - vm_compute; reflexivity.
  - reflexivity.
Defined.



(** * Instances of the further properties *)

(** X1 at an [int] field and a value that does not parse. *)
Lemma numeric_failure_keeps_value_witness :
  assignToStructField noFloat sameBits true (reflect.IntOf reflect.Int 7) ["abc"] =
    Returns (reflect.IntOf reflect.Int 7,
             Some (NumErrorPtr (strconv.mkNumError "ParseInt" "abc" strconv.ErrSyntax))) /\
  reflect.IntOf reflect.Int 7 = reflect.IntOf reflect.Int 7.
Proof.
  split; [reflexivity|].
  exact (numeric_failure_keeps_value noFloat sameBits true (reflect.IntOf reflect.Int 7)
           ["abc"] (reflect.IntOf reflect.Int 7)
           (NumErrorPtr (strconv.mkNumError "ParseInt" "abc" strconv.ErrSyntax))
           eq_refl eq_refl).
Defined.

(** X2 at a bool field that holds true and the value [yes]. *)
Lemma bool_failure_resets_witness :
  assignToStructField noFloat sameBits true (reflect.BoolOf true) ["yes"] =
    Returns (reflect.BoolOf false,
             Some (NumErrorPtr (strconv.mkNumError "ParseBool" "yes" strconv.ErrSyntax))) /\
  reflect.BoolOf false = reflect.BoolOf false.
Proof.
  split; [reflexivity|].
  exact (bool_failure_resets noFloat sameBits true ["yes"] (reflect.BoolOf false)
           (NumErrorPtr (strconv.mkNumError "ParseBool" "yes" strconv.ErrSyntax)) eq_refl).
Defined.


(** X4 at a [uint16] field. *)
Lemma blank_is_zero_witness :
  assignToStructField noFloat sameBits true (reflect.UintOf reflect.Uint16 3) [] =
  assignToStructField noFloat sameBits true (reflect.UintOf reflect.Uint16 3) ["0"].
Proof.
  exact (proj1 (blank_is_zero noFloat sameBits true (reflect.UintOf reflect.Uint16 3) eq_refl)).
Defined.

(** X5 at two keys [FixtureAddress] has no field for. *)
Lemma unknown_keys_skipped_witness :
  Unmarshal noFloat sameBits [("country", ["US"]); ("phone", [])]
    (Pointer (FixtureAddress.at_ FixtureAddress.zero)) =
  Returns (Pointer (FixtureAddress.at_ FixtureAddress.zero), None).
Proof.
  apply (unknown_keys_skipped noFloat sameBits FixtureAddress.rt FixtureAddress.ptrt
           FixtureAddress.zero [("country", ["US"]); ("phone", [])]).
  repeat constructor.
Defined.

(** X6 at a pointer to a map. *)
Lemma only_structs_decode_witness :
  exists msg,
    Unmarshal noFloat sameBits [("a", ["b"])] (Pointer MapAt) =
    Returns (Pointer MapAt, Some (errorString msg)).
Proof.
  destruct (only_structs_decode noFloat sameBits) as [_ H].
  apply (H (Pointer MapAt) [("a", ["b"])]); [reflexivity|discriminate].
Defined.

(** X7 at a struct with two fields tagged [name]. *)
Lemma first_match_wins_witness :
  findByKey ([field "A" "x"] ++ field "B" "name" :: [field "C" "name"]) "name" =
  Some (field "B" "name").
Proof.
  apply (first_match_wins noFloat sameBits [field "A" "x"] (field "B" "name")
           [field "C" "name"] "name").
  - repeat constructor. discriminate.
  - reflexivity.
Defined.

(** X8 at the setter of [City]: the city is stored in lower case, by the
    setter. *)
Lemma setter_has_the_field_witness :
  findIn noFloat sameBits (PtrTo (FixtureAddress.at_ FixtureAddress.zero))
    "city" ["Glenview"] =
  Returns (PtrTo (FixtureAddress.at_
                    [reflect.StringOf ""; reflect.StringOf "glenview";
                     reflect.StringOf ""; reflect.IntOf reflect.Int 0]), None).
Proof.
  apply (setter_has_the_field noFloat sameBits FixtureAddress.rt FixtureAddress.ptrt
           FixtureAddress.zero "city" ["Glenview"] (field "City" "city")
           FixtureAddress.zero FixtureAddress.FormSetCity).
  - reflexivity.
  - vm_compute; reflexivity.
  - vm_compute; reflexivity.
Defined.

(** X9 at the validator of [Street], which reads the first value of a key
    that has none. *)
Lemma panic_propagates_witness :
  Unmarshal noFloat sameBits
    ([("zip", ["60626"])] ++ ("street", []) :: [("state", ["Illinois"])])
    (Pointer (FixtureAddress.at_ FixtureAddress.zero)) = Panics IndexOutOfRange.
Proof.
  apply (panic_propagates noFloat sameBits (FixtureAddress.at_ FixtureAddress.zero)
           [("zip", ["60626"])] []
           (PtrTo (FixtureAddress.at_
                     [reflect.StringOf ""; reflect.StringOf ""; reflect.StringOf "";
                      reflect.IntOf reflect.Int 60626]))).
  - eapply Scans_assigned; [vm_compute; reflexivity|apply Scans_done].
  - vm_compute; reflexivity.
Defined.

(** X10 at an [int] that does not parse, in the struct of the example. *)
Lemma hookfree_never_errors_witness :
  Unmarshal noFloat sameBits [("age", ["eleven"])] (Pointer (Person_at "" "" 0)) =
    Returns (Pointer (Person_at "" "" 0), None) /\
  (None : option error) = None /\
  exists fields', Pointer (Person_at "" "" 0) = Pointer (StructAt Person_rt ∅ fields').
Proof.
  assert (H : Unmarshal noFloat sameBits [("age", ["eleven"])]
                (Pointer (Person_at "" "" 0)) =
              Returns (Pointer (Person_at "" "" 0), None)) by (vm_compute; reflexivity).
  split; [exact H|].
  exact (hookfree_never_errors noFloat sameBits Person_rt
           [reflect.StringOf ""; reflect.StringOf ""; reflect.IntOf reflect.Int 0]
           [("age", ["eleven"])] (Pointer (Person_at "" "" 0)) None H).
Defined.

(** X11 at the input of the example program. *)
Lemma hookfree_decodes_witness :
  exists fields',
    Unmarshal noFloat sameBits
      [("first_name", ["Batty"]); ("last_name", ["Penderwick"]); ("age", ["11"])]
      (Pointer (Person_at "" "" 0)) =
      Returns (Pointer (StructAt Person_rt ∅ fields'), None) /\
    kindOf <$> fields' =
    kindOf <$> [reflect.StringOf ""; reflect.StringOf ""; reflect.IntOf reflect.Int 0].
Proof.
  apply (hookfree_decodes noFloat sameBits Person_rt
           [reflect.StringOf ""; reflect.StringOf ""; reflect.IntOf reflect.Int 0]).
  - repeat constructor.
  - repeat constructor; discriminate.
Defined.

(** The preconditions of X12 to X14 at the struct and the input of the
    example program. *)
Lemma Person_exported : Forall (fun f => reflect.Exported f = true) Person_rt.
Proof. repeat constructor. Defined.

Lemma Person_names : NoDup (reflect.FName <$> Person_rt).
Proof.
  repeat (constructor;
          [cbn; rewrite ?elem_of_cons, elem_of_nil; intuition discriminate|]).
  constructor.
Defined.

Lemma example_values :
  Forall (fun entry : string * list string => entry.2 <> [])
    [("first_name", ["Batty"]); ("last_name", ["Penderwick"]); ("age", ["11"])].
Proof. repeat constructor; discriminate. Defined.

Lemma example_keys :
  NoDup [("first_name", ["Batty"]); ("last_name", ["Penderwick"]); ("age", ["11"])].*1.
Proof.
  repeat (constructor;
          [cbn; rewrite ?elem_of_cons, elem_of_nil; intuition discriminate|]).
  constructor.
Defined.

(** X12 at the example: the three entries in two orders. *)
Lemma hookfree_order_independent_witness :
  Unmarshal noFloat sameBits
    [("first_name", ["Batty"]); ("last_name", ["Penderwick"]); ("age", ["11"])]
    (Pointer (Person_at "" "" 0)) =
  Unmarshal noFloat sameBits
    [("age", ["11"]); ("last_name", ["Penderwick"]); ("first_name", ["Batty"])]
    (Pointer (Person_at "" "" 0)).
Proof.
  apply (hookfree_order_independent noFloat sameBits Person_rt _ _ _
           Person_exported Person_names example_values example_keys).
  etransitivity; [apply perm_skip, perm_swap|].
  etransitivity; [apply perm_swap|].
  apply perm_skip, perm_swap.
Defined.

(** X13 at the example. *)
Lemma hookfree_idempotent_witness :
  exists o',
    Unmarshal noFloat sameBits
      [("first_name", ["Batty"]); ("last_name", ["Penderwick"]); ("age", ["11"])]
      (Pointer (Person_at "" "" 0)) = Returns (o', None) /\
    Unmarshal noFloat sameBits
      [("first_name", ["Batty"]); ("last_name", ["Penderwick"]); ("age", ["11"])]
      o' = Returns (o', None).
Proof.
  exact (hookfree_idempotent noFloat sameBits Person_rt
           [reflect.StringOf ""; reflect.StringOf ""; reflect.IntOf reflect.Int 0] _
           Person_exported Person_names example_values example_keys).
Defined.

(** X14 at the example: the field [Age], of index 2, and the key [age]. *)
Lemma matched_field_holds_coercion_witness :
  exists fields' rv' e,
    Unmarshal noFloat sameBits
      [("first_name", ["Batty"]); ("last_name", ["Penderwick"]); ("age", ["11"])]
      (Pointer (Person_at "" "" 0)) =
      Returns (Pointer (StructAt Person_rt ∅ fields'), None) /\
    assignToStructField noFloat sameBits true (reflect.IntOf reflect.Int 0) ["11"] =
      Returns (rv', e) /\
    fields' !! 2%nat = Some rv'.
Proof.
  apply (matched_field_holds_coercion noFloat sameBits Person_rt
           [reflect.StringOf ""; reflect.StringOf ""; reflect.IntOf reflect.Int 0] _
           "age" ["11"] 2%nat (reflect.IntOf reflect.Int 0)
           Person_exported Person_names example_values example_keys).
  - do 2 right. left.
  - reflexivity.
  - reflexivity.
Defined.

(** X15 at the struct with two names: no key leads to [LastName], of
    index 1. *)
Lemma unmatched_fields_untouched_witness :
  [reflect.StringOf "Matt"; reflect.StringOf ""] !! 1%nat =
  [reflect.StringOf ""; reflect.StringOf ""] !! 1%nat.
Proof.
  apply (unmatched_fields_untouched noFloat sameBits NamePair.rt
           [reflect.StringOf ""; reflect.StringOf ""] [("first_name", ["Matt"])]
           [reflect.StringOf "Matt"; reflect.StringOf ""] None 1%nat).
  - vm_compute; reflexivity.
  - repeat constructor. vm_compute. discriminate.
Defined.

(** X16 at the unexported counter: the key [hits] is passed over. *)
Lemma unexported_field_witness :
  Unmarshal noFloat sameBits [("hits", ["5"]); ("name", ["home"])]
    (Pointer (Counter_at 0 "")) =
  Unmarshal noFloat sameBits [("name", ["home"])] (Pointer (Counter_at 0 "")).
Proof.
  apply (unexported_field noFloat sameBits Counter_rt
           [reflect.IntOf reflect.Int 0; reflect.StringOf ""] "hits" ["5"]
           (reflect.mkStructField "hits" "hits" false) 0%nat (reflect.IntOf reflect.Int 0)
           [("name", ["home"])]);
    [reflexivity|reflexivity|reflexivity|reflexivity|discriminate].
Defined.

(** X17 at a map with one key. *)
Lemma walk_into_map_witness :
  walk noFloat sameBits (MapValue ∅) [("a", ["1"])] =
  Returns (MapValue (omap stored {["a" := ["1"]]} ∪ ∅), None).
Proof.
  apply (walk_into_map noFloat sameBits {["a" := ["1"]]} [("a", ["1"])] ∅).
  unfold ranges. rewrite map_to_list_singleton. reflexivity.
Defined.

(** X22 at the setter that returns a validation error. *)
Lemma no_bare_validation_error_witness :
  asValidationError (CompoundValidationError [Invalid "email" "email is required"]) = None.
Proof.
  apply (no_bare_validation_error noFloat sameBits [("email", [""]); ("age", ["7"])]
           (Pointer (Signup.at_ "" 0)) (Pointer (Signup.at_ "" 7))).
  vm_compute; reflexivity.
Defined.
